(** * Silicon signature pipeline: watermark codec, verifier and bridge

    A shallow embedding of [silicon_rs_watermark.py],
    [verify_silicon_art.py] and [drivers/s9_dual_bridge.py].

    Python integers are [N]; a [bytes] object, a [bytearray] and a
    flattened [uint8] array are lists of [N] whose entries are below 256
    ([is_bytes]); a Python [str] is a [string]; a [dict] with string keys
    is a [gmap string _]. *)

From Stdlib Require Import NArith ZArith List Ascii String Lia.
From stdpp Require Import base list gmap strings.

Local Open Scope N_scope.

(** ** Byte lists *)

Definition is_byte (b : N) : Prop := b < 256.
Definition is_bytes (l : list N) : Prop := Forall is_byte l.

Definition all_byte_values : list N := Eval vm_compute in map N.of_nat (seq 0 256).

(** Python's [l[i]] on a list of integers.  The source only indexes inside
    the list; outside, Python raises [IndexError] and this model yields 0. *)
Definition idx (l : list N) (i : nat) : N := nth i l 0.

(** Python's [l[k] ^= v].  Outside the list Python raises; the codec never
    gets there, and the model leaves the list as it is. *)
Definition xor_at (l : list N) (k : nat) (v : N) : list N :=
  match l !! k with
  | Some old => <[k := N.lxor old v]> l
  | None => l
  end.

(** ** GF(2^8) tables, primitive polynomial 0x11d *)

Definition PRIM : N := 0x11d.

(** One round of the first loop of [init_gf_tables]; the state is
    [(GF_EXP, GF_LOG, x)]. *)
Definition init_gf_step (st : list N * list N * N) (i : nat) : list N * list N * N :=
  let '(gf_exp, gf_log, x) := st in
  let gf_exp := <[i := x]> gf_exp in
  let gf_log := <[N.to_nat x := N.of_nat i]> gf_log in
  let x := N.shiftl x 1 in
  let x := if N.eqb (N.land x 0x100) 0 then x else N.lxor x PRIM in
  (gf_exp, gf_log, x).

Definition init_gf_tables : list N * list N :=
  let '(gf_exp, gf_log, _) :=
    foldl init_gf_step (replicate 512%nat 0, replicate 256%nat 0, 1) (seq 0 255) in
  let gf_exp :=
    foldl (fun e i => <[i := idx e (i - 255)]> e) gf_exp (seq 255 (512 - 255)) in
  (gf_exp, gf_log).

Definition GF_EXP : list N := Eval vm_compute in fst init_gf_tables.
Definition GF_LOG : list N := Eval vm_compute in snd init_gf_tables.

Definition gf_mul (x y : N) : N :=
  if N.eqb x 0 || N.eqb y 0 then 0
  else idx GF_EXP (N.to_nat ((idx GF_LOG (N.to_nat x) + idx GF_LOG (N.to_nat y)) mod 255)).

(** [gf_div] raises [ZeroDivisionError] on a zero divisor.  Python's [%]
    is the floor modulus, so the difference of logarithms is taken in [Z]. *)
Definition gf_div (x y : N) : option N :=
  if N.eqb y 0 then None
  else if N.eqb x 0 then Some 0
  else Some (idx GF_EXP (Z.to_nat
         ((Z.of_N (idx GF_LOG (N.to_nat x)) - Z.of_N (idx GF_LOG (N.to_nat y))) mod 255)%Z)).

Definition gf_poly_mul (p q : list N) : list N :=
  let r := replicate (length p + length q - 1)%nat 0 in
  foldl (fun r j =>
           foldl (fun r i => xor_at r (i + j) (gf_mul (idx p i) (idx q j)))
                 r (seq 0 (length p)))
        r (seq 0 (length q)).

Definition rs_generator_poly (nsym : nat) : list N :=
  foldl (fun g i => gf_poly_mul g [1; idx GF_EXP i]) [1] (seq 0 nsym).

(** [rs_encode]: the remainder of the division by the generator is
    computed in place in [msg_out]. *)
Definition rs_encode_inner (gen : list N) (coef : N) (i : nat) (msg_out : list N) : list N :=
  foldl (fun m j => xor_at m (i + j) (gf_mul (idx gen j) coef)) msg_out (seq 0 (length gen)).

Definition rs_encode_step (gen : list N) (msg_out : list N) (i : nat) : list N :=
  let coef := idx msg_out i in
  if N.eqb coef 0 then msg_out else rs_encode_inner gen coef i msg_out.

Definition rs_encode (data : list N) (nsym : nat) : list N :=
  let gen := rs_generator_poly nsym in
  let msg_out := data ++ replicate nsym 0 in
  let msg_out := foldl (rs_encode_step gen) msg_out (seq 0 (length data)) in
  data ++ drop (length data) msg_out.

(** [gf_poly_eval] reads [poly[0]] first: [IndexError] on the empty list. *)
Definition gf_poly_eval (poly : list N) (x : N) : option N :=
  match poly with
  | [] => None
  | p0 :: rest => Some (foldl (fun y c => N.lxor (gf_mul y x) c) p0 rest)
  end.

(** [rs_syndromes]: a leading 0, then the value of the message at
    [GF_EXP[i]] for [i < nsym]; [None] when an evaluation raises. *)
Definition rs_syndromes (msg : list N) (nsym : nat) : option (list N) :=
  synd ← mapM (fun i => gf_poly_eval msg (idx GF_EXP i)) (seq 0 nsym);
  Some (0 :: synd).

(** [max(synd) == 0] on a list of naturals. *)
Definition max_is_zero (synd : list N) : bool := forallb (N.eqb 0) synd.

(** Python's [msg[:-nsym]] for [nsym > 0]. *)
Definition drop_last (nsym : nat) (msg : list N) : list N :=
  take (length msg - nsym)%nat msg.

(** [rs_decode_simple]: [Some data] when it returns, [None] when it
    raises ([ValueError] on a non-zero syndrome, [IndexError] from the
    evaluation of an empty message). *)
Definition rs_decode_simple (msg : list N) (nsym : nat) : option (list N) :=
  synd ← rs_syndromes msg nsym;
  if max_is_zero synd then Some (drop_last nsym msg) else None.

Definition RS_NSYM : nat := 32.
Definition SIGNATURE_REPEATS : nat := 5.

(** ** Python helpers *)

(** A Python call either returns a value or raises. *)
Inductive py (A : Type) : Type :=
| Return (a : A)
| Raise.
Arguments Return {A} a.
Arguments Raise {A}.

(** [range(start, stop, step)] for [step <> 0]. *)
Definition py_range (start stop step : Z) : list Z :=
  let n := if (0 <? step)%Z then ((stop - start + step - 1) / step)%Z
           else ((start - stop - step - 1) / (- step))%Z in
  map (fun k => (start + Z.of_nat k * step)%Z) (seq 0 (Z.to_nat n)).

(** [l[i:j]] for [0 <= i]. *)
Definition slice {A} (l : list A) (i j : nat) : list A := take (j - i)%nat (drop i l).

(** [n.to_bytes(k, 'big')]: [OverflowError] when [n] does not fit. *)
Definition to_bytes_big (k : nat) (n : N) : option (list N) :=
  if n <? 256 ^ N.of_nat k
  then Some (map (fun i => (n / 256 ^ N.of_nat (k - 1 - i)) mod 256) (seq 0 k))
  else None.

(** [payload * n] on bytes. *)
Definition bytes_repeat (n : nat) (payload : list N) : list N :=
  concat (replicate n payload).

(** The libraries the codec calls and the repository does not contain:
    [json] (with the UTF-8 step of [str.encode] and [bytes.decode]) and
    [os.path.splitext].  [pyobj] is the type of Python values that
    [json.loads] can return; [py_truthy] is Python's truth value. *)
Class PyLib : Type := {
  pyobj : Type;
  (** [json.dumps(d, separators=(',', ':')).encode('utf-8')] *)
  json_dumps_compact : pyobj -> list N;
  (** [json.loads(b.decode('utf-8'))]; [None] when either step raises *)
  json_loads : list N -> option pyobj;
  py_truthy : pyobj -> bool;
  splitext : string -> string * string
}.

(** ** Watermark engine *)

(** The array [np.array(Image.open(path).convert('RGB'))]: its shape and
    its flattened [uint8] content.  Files are kept in a lossless format,
    so that a saved array is read back as it was written. *)
Record Image : Type := {
  height : nat;
  width : nat;
  channels : nat;
  pixels : list N
}.


Section Codec.
Context `{PyLib}.

Definition encode_signature (signature_dict : pyobj) : list N :=
  json_dumps_compact signature_dict.

(** [None] is Python's [None], returned when the parse raises. *)
Definition decode_signature (data_bytes : list N) : option pyobj :=
  json_loads data_bytes.

(** The bits of a byte, most significant first. *)
Definition byte_bits (byte : N) : list N :=
  map (fun i => N.land (N.shiftr byte (N.of_nat (7 - i))) 1) (seq 0 8).

Definition bytes_to_bits (full_payload : list N) : list N :=
  foldl (fun bits byte => bits ++ byte_bits byte) [] full_payload.

(** [flat[i] = (flat[i] & 0xFE) | bit] for [i, bit] in [enumerate(bits)]. *)
Definition embed_bits (bits : list N) (flat : list N) : list N :=
  foldl (fun flat ib => <[fst ib := N.lor (N.land (idx flat (fst ib)) 0xFE) (snd ib)]> flat)
        flat (zip (seq 0 (length bits)) bits).

Definition watermark_payload (signature_dict : pyobj) : option (list N) :=
  let raw_data := encode_signature signature_dict in
  let encoded_data := rs_encode raw_data RS_NSYM in
  length_header ← to_bytes_big 4 (N.of_nat (length encoded_data));
  Some (bytes_repeat SIGNATURE_REPEATS (length_header ++ encoded_data)).

Definition default_output_path (image_path : string) : string :=
  let '(base, ext) := splitext image_path in
  (base ++ "_rsw" ++ ext)%string.

(** [embed_watermark]: the result and the file system after the call.
    A missing input file and a length that does not fit four bytes raise. *)
Definition embed_watermark (fs : gmap string Image) (image_path : string)
    (signature_dict : pyobj) (output_path : option string)
  : py (option string) * gmap string Image :=
  match fs !! image_path with
  | None => (Raise, fs)
  | Some img =>
    let arr := pixels img in
    let '(h, w, c) := (height img, width img, channels img) in
    match watermark_payload signature_dict with
    | None => (Raise, fs)
    | Some full_payload =>
      let bits := bytes_to_bits full_payload in
      let capacity := (h * w * c)%nat in
      if (capacity <? length bits)%nat then (Return None, fs)
      else
        let flat := embed_bits bits arr in
        let watermarked := {| height := h; width := w; channels := c; pixels := flat |} in
        let output_path :=
          match output_path with
          | None => default_output_path image_path
          | Some p => p
          end in
        (Return (Some output_path), <[output_path := watermarked]> fs)
    end
  end.

(** The length header: [length = (length << 1) | bit] over the bits. *)
Definition bits_to_int (bits : list N) : N :=
  foldl (fun length bit => N.lor (N.shiftl length 1) bit) 0 bits.

(** The bytes of one copy: eight bits at a time, a short last group
    keeping the bits it has. *)
Definition bits_to_bytes (data_bits : list N) : list N :=
  map (fun i =>
         foldl (fun byte j =>
                  if (Z.to_nat i + j <? length data_bits)%nat
                  then N.lor (N.shiftl byte 1) (idx data_bits (Z.to_nat i + j))
                  else byte)
               0 (seq 0 8))
      (py_range 0 (Z.of_nat (length data_bits)) 8).

(** What the body of the loop over [rep] does with one copy: the bytes
    handed to [rs_decode_simple] and the signature appended to
    [candidates], if any. *)
Definition copy_bytes (all_bits : list N) (single_payload_bits rep : nat) : list N :=
  let start := (rep * single_payload_bits)%nat in
  let end_ := (start + single_payload_bits)%nat in
  let payload_bits := slice all_bits start end_ in
  let data_bits := drop 32 payload_bits in
  bits_to_bytes data_bits.

Definition try_copy (payload_bytes : list N) : option pyobj :=
  match rs_decode_simple payload_bytes RS_NSYM with
  | Some decoded =>
    match decode_signature decoded with
    | Some signature => if py_truthy signature then Some signature else None
    | None => None
    end
  | None => None
  end.

(** The loop over [rep], with its [break]: the candidates found and the
    byte blocks on which a decode was attempted, both in order. *)
Fixpoint extract_loop (all_bits : list N) (single_payload_bits : nat) (reps : list nat)
  : list pyobj * list (list N) :=
  match reps with
  | [] => ([], [])
  | rep :: reps' =>
    let start := (rep * single_payload_bits)%nat in
    let end_ := (start + single_payload_bits)%nat in
    if (length all_bits <? end_)%nat then ([], [])
    else
      let payload_bytes := copy_bytes all_bits single_payload_bits rep in
      let '(candidates, attempts) := extract_loop all_bits single_payload_bits reps' in
      (match try_copy payload_bytes with
       | Some signature => signature :: candidates
       | None => candidates
       end,
       payload_bytes :: attempts)
  end.

(** [extract_watermark] on the loaded array: the returned signature
    ([None] is Python's [None]) and the decode attempts made. *)
Definition extract_from (flat : list N) : option pyobj * list (list N) :=
  let all_bits := map (fun b => N.land b 1) flat in
  let length_bits := take 32 all_bits in
  let length := bits_to_int length_bits in
  if (length <=? 0) || (10000 <? length) then (None, [])
  else
    let single_payload_bits := ((4 + N.to_nat length) * 8)%nat in
    let '(candidates, attempts) :=
      extract_loop all_bits single_payload_bits (seq 0 SIGNATURE_REPEATS) in
    (head candidates, attempts).



End Codec.

(** ** SHA-256 ([hashlib.sha256], FIPS 180-4) on byte lists *)

Module Sha256.

Definition mask32 : N := 0xffffffff.
Definition add32 (a b : N) : N := N.land (a + b) mask32.
Definition rotr (n x : N) : N :=
  N.lor (N.shiftr x n) (N.land (N.shiftl x (32 - n)) mask32).
Definition not32 (x : N) : N := N.lxor x mask32.

Definition Ch (x y z : N) : N := N.lxor (N.land x y) (N.land (not32 x) z).
Definition Maj (x y z : N) : N :=
  N.lxor (N.lxor (N.land x y) (N.land x z)) (N.land y z).
Definition Sigma0 (x : N) : N := N.lxor (N.lxor (rotr 2 x) (rotr 13 x)) (rotr 22 x).
Definition Sigma1 (x : N) : N := N.lxor (N.lxor (rotr 6 x) (rotr 11 x)) (rotr 25 x).
Definition sigma0 (x : N) : N := N.lxor (N.lxor (rotr 7 x) (rotr 18 x)) (N.shiftr x 3).
Definition sigma1 (x : N) : N := N.lxor (N.lxor (rotr 17 x) (rotr 19 x)) (N.shiftr x 10).

(** The first 64 primes. *)
Definition primes : list N :=
  [2; 3; 5; 7; 11; 13; 17; 19; 23; 29; 31; 37; 41; 43; 47; 53; 59; 61; 67; 71; 73; 79;
   83; 89; 97; 101; 103; 107; 109; 113; 127; 131; 137; 139; 149; 151; 157; 163; 167;
   173; 179; 181; 191; 193; 197; 199; 211; 223; 227; 229; 233; 239; 241; 251; 257; 263;
   269; 271; 277; 281; 283; 293; 307; 311].

(** The integer cube root of a number below 2^108, bit by bit. *)
Definition cube_root (n : N) : N :=
  foldl (fun r i => let r' := r + 2 ^ N.of_nat (35 - i) in
                    if r' * r' * r' <=? n then r' else r)
        0 (seq 0 36).

(** The round constants: the first 32 bits of the fractional parts of the
    cube roots of the first 64 primes. *)
Definition K : list N :=
  Eval vm_compute in map (fun p => N.land (cube_root (p * 2 ^ 96)) mask32) primes.

(** The initial hash value: the first 32 bits of the fractional parts of
    the square roots of the first 8 primes. *)
Definition H0 : list N :=
  Eval vm_compute in map (fun p => N.land (N.sqrt (p * 2 ^ 64)) mask32) (take 8 primes).

(** Padding: a 1 bit, zeros up to 56 mod 64, the bit length on 8 bytes. *)
Definition pad (msg : list N) : list N :=
  let n := length msg in
  let zeros := ((64 - (n + 9) mod 64) mod 64)%nat in
  msg ++ [0x80] ++ replicate zeros 0
      ++ map (fun i => (N.of_nat (8 * n) / 256 ^ N.of_nat (7 - i)) mod 256) (seq 0 8).

Fixpoint words_of_bytes (l : list N) : list N :=
  match l with
  | a :: b :: c :: d :: l' =>
    (N.shiftl a 24 + N.shiftl b 16 + N.shiftl c 8 + d) :: words_of_bytes l'
  | _ => []
  end.

Definition bytes_of_word (w : N) : list N :=
  [N.shiftr w 24 mod 256; N.shiftr w 16 mod 256; N.shiftr w 8 mod 256; w mod 256].

(** The message schedule, newest word first. *)
Definition schedule_step (rev_w : list N) (_ : nat) : list N :=
  add32 (add32 (sigma1 (idx rev_w 1)) (idx rev_w 6))
        (add32 (sigma0 (idx rev_w 14)) (idx rev_w 15)) :: rev_w.

Definition schedule (block_words : list N) : list N :=
  rev (foldl schedule_step (rev block_words) (seq 16 48)).

Definition round (st : list N) (kw : N * N) : list N :=
  match st with
  | [a; b; c; d; e; f; g; h] =>
    let t1 := add32 (add32 (add32 h (Sigma1 e)) (add32 (Ch e f g) (fst kw))) (snd kw) in
    let t2 := add32 (Sigma0 a) (Maj a b c) in
    [add32 t1 t2; a; b; c; add32 d t1; e; f; g]
  | _ => st
  end.

Definition compress (hash : list N) (block_words : list N) : list N :=
  let st := foldl round hash (zip K (schedule block_words)) in
  zip_with add32 hash st.

(** The 16-word blocks of a padded message. *)
Fixpoint blocks (fuel : nat) (ws : list N) : list (list N) :=
  match fuel, ws with
  | S fuel', _ :: _ => take 16 ws :: blocks fuel' (drop 16 ws)
  | _, _ => []
  end.

Definition digest (msg : list N) : list N :=
  let ws := words_of_bytes (pad msg) in
  flat_map bytes_of_word (foldl compress H0 (blocks (length ws) ws)).

End Sha256.

Definition sha256 (data_bytes : list N) : list N := Sha256.digest data_bytes.

(** ** Hexadecimal strings ([bytes.hex], [binascii.unhexlify], [int(s, 16)]) *)

Definition hex_digit (d : N) : ascii :=
  if d <? 10 then ascii_of_N (48 + d) else ascii_of_N (87 + d).

(** The value of a hexadecimal digit, of either case. *)
Definition hex_value (c : ascii) : option N :=
  let n := N_of_ascii c in
  if (48 <=? n) && (n <=? 57) then Some (n - 48)
  else if (97 <=? n) && (n <=? 102) then Some (n - 87)
  else if (65 <=? n) && (n <=? 70) then Some (n - 55)
  else None.

(** [data.hex()] and [hexdigest()]. *)
Fixpoint hex (data : list N) : string :=
  match data with
  | [] => EmptyString
  | b :: data' => String (hex_digit (b / 16)) (String (hex_digit (b mod 16)) (hex data'))
  end.

(** [binascii.unhexlify]: [None] when it raises (odd length, or a
    character that is not a hexadecimal digit). *)
Fixpoint unhexlify (s : string) : option (list N) :=
  match s with
  | EmptyString => Some []
  | String a (String b s') =>
    match hex_value a, hex_value b, unhexlify s' with
    | Some x, Some y, Some l => Some ((16 * x + y) :: l)
    | _, _, _ => None
    end
  | String _ EmptyString => None
  end.

(** [int(s, 16)] on a string of hexadecimal digits. *)
Definition int16 (s : string) : option N :=
  foldl (fun acc c => n ← acc; d ← hex_value c; Some (16 * n + d)) (Some 0)
        (list_ascii_of_string s).

(** [s * n] on strings. *)
Fixpoint str_repeat (s : string) (n : nat) : string :=
  match n with
  | O => EmptyString
  | S n' => (s ++ str_repeat s n')%string
  end.

(** [s[i:j]] on strings, for [0 <= i]. *)
Definition str_slice (s : string) (i j : nat) : string := substring i (j - i) s.

(** ** The verifier *)

Definition double_sha256 (data_bytes : list N) : list N := sha256 (sha256 data_bytes).

(** [swab32]: the loop stops at the first chunk shorter than 8. *)
Fixpoint swab32_loop (hex_str : string) (starts : list Z) (res : string) : string :=
  match starts with
  | [] => res
  | i :: starts' =>
    let chunk := str_slice hex_str (Z.to_nat i) (Z.to_nat i + 8) in
    if (String.length chunk <? 8)%nat then res
    else swab32_loop hex_str starts'
           (res ++ (str_slice chunk 6 8 ++ str_slice chunk 4 6
                    ++ str_slice chunk 2 4 ++ str_slice chunk 0 2))%string
  end.

Definition swab32 (hex_str : string) : string :=
  swab32_loop hex_str (py_range 0 (Z.of_nat (String.length hex_str)) 8) EmptyString.

Definition reverse_bytes (hex_str : string) : string :=
  String.concat EmptyString
    (map (fun i => str_slice hex_str (Z.to_nat i) (Z.to_nat i + 2))
         (py_range (Z.of_nat (String.length hex_str) - 2) (-1) (-2))).

(** What [Image.open(image_path)] gives the verifier: the text metadata
    [img.info] and the raw pixel bytes [img.tobytes()]. *)
Record PngImage : Type := {
  info : gmap string string;
  tobytes : list N
}.

Definition target : N :=
  0x00000000ffff0000000000000000000000000000000000000000000000000000.

(** The three renderings of a field: raw, reversed, swab32. *)
Definition variants (s : string) : list string := [s; reverse_bytes s; swab32 s].

(** [itertools.product] over the pools: the last pool varies fastest. *)
Definition product {A} (pools : list (list A)) : list (list A) :=
  foldl (fun result pool => x ← result; y ← pool; [x ++ [y]]) [[]] pools.

(** The calls of the hash function made by [verify_art], in order. *)
Inductive hash_call : Type :=
| HashPixels (pixel_data : list N)
| HashCoinbase (cb : list N)
| HashHeader (h_bytes : list N).

(** The body of the [try]: [None] when [unhexlify] raises and the
    [except] swallows it. *)
Definition header_below_target (header : string) : option (list N * bool) :=
  h_bytes ← unhexlify header;
  let res_hash := hex (rev (double_sha256 h_bytes)) in
  v ← int16 res_hash;
  Some (h_bytes, v <? target).

(** The inner loop over the renderings of the merkle root: whether it
    returned [True], and the headers it hashed. *)
Fixpoint try_merkle_roots (v p nt nb no : string) (mrs : list string)
  : bool * list hash_call :=
  match mrs with
  | [] => (false, [])
  | mr :: mrs' =>
    let header := (v ++ p ++ mr ++ nt ++ nb ++ no)%string in
    match header_below_target header with
    | Some (h_bytes, true) => (true, [HashHeader h_bytes])
    | Some (h_bytes, false) =>
      let '(found, calls) := try_merkle_roots v p nt nb no mrs' in
      (found, HashHeader h_bytes :: calls)
    | None => try_merkle_roots v p nt nb no mrs'
    end
  end.

Definition coinbase_hex (en2 : string) : string :=
  (str_repeat "00" 32 ++ "00000000" ++ en2 ++ str_repeat "00" 32)%string.

(** The outer loop over the product of the field renderings.  The
    [unhexlify] of the coinbase is outside the [try]: it raises. *)
Fixpoint search_profiles (tuples : list (list string)) : py bool * list hash_call :=
  match tuples with
  | [] => (Return false, [])
  | [v; p; nt; nb; no; en2] :: tuples' =>
    match unhexlify (coinbase_hex en2) with
    | None => (Raise, [])
    | Some cb =>
      let mr_raw := hex (double_sha256 cb) in
      let '(found, calls) := try_merkle_roots v p nt nb no (variants mr_raw) in
      if found then (Return true, HashCoinbase cb :: calls)
      else
        let '(r, calls') := search_profiles tuples' in
        (r, HashCoinbase cb :: calls ++ calls')
    end
  | _ :: _ => (Raise, [])
  end.

(** The dictionary [comp]; a missing key raises [KeyError]. *)
Record components : Type := {
  comp_v : string;
  comp_p : string;
  comp_en2 : string;
  comp_nt : string;
  comp_nb : string;
  comp_no : string
}.

Definition extract_components (meta : gmap string string) : option components :=
  v ← meta !! "Silicon-Auth-Version"%string;
  p ← meta !! "Silicon-Auth-Hash"%string;
  en2 ← meta !! "Silicon-Auth-Extranonce2"%string;
  nt ← meta !! "Silicon-Auth-Ntime"%string;
  no ← meta !! "Silicon-Auth-Nonce"%string;
  Some {| comp_v := v; comp_p := p; comp_en2 := en2; comp_nt := nt;
          comp_nb := "1d00ffff"; comp_no := no |}.

Definition opts_values (comp : components) : list (list string) :=
  map variants [comp_v comp; comp_p comp; comp_nt comp; comp_nb comp; comp_no comp; comp_en2 comp].

(** [verify_art]: the result and the hash calls made. *)
Definition verify_art (fs : gmap string PngImage) (image_path : string)
  : py bool * list hash_call :=
  match fs !! image_path with
  | None => (Return false, [])
  | Some img =>
    let meta := info img in
    match meta !! "Silicon-Auth-Hash"%string with
    | None => (Return false, [])
    | Some auth_hash =>
      let pixel_data := tobytes img in
      let current_hash := hex (sha256 pixel_data) in
      if negb (String.eqb current_hash auth_hash)
      then (Return false, [HashPixels pixel_data])
      else
        match extract_components meta with
        | None => (Raise, [HashPixels pixel_data])
        | Some comp =>
          let '(r, calls) := search_profiles (product (opts_values comp)) in
          (r, HashPixels pixel_data :: calls)
        end
    end
  end.

(** ** The dual bridge *)

Module Bridge.

(** The values [json.loads] builds and [json.dumps] prints.  A [dict] is
    the list of its items, with distinct keys. *)
#[warnings="-register-all"]
Inductive jval : Type :=
| JNull
| JBool (b : bool)
| JNum (n : Z)
| JStr (s : string)
| JList (l : list jval)
| JDict (d : list (string * jval)).

(** [d.get(key)] and [d.get(key, default)]. *)
Fixpoint dict_lookup (d : list (string * jval)) (key : string) : option jval :=
  match d with
  | [] => None
  | (k, v) :: d' => if String.eqb k key then Some v else dict_lookup d' key
  end.

Definition dict_get (d : list (string * jval)) (key : string) (default : jval) : jval :=
  match dict_lookup d key with
  | Some v => v
  | None => default
  end.

(** [v[i]] for a constant [i >= 0]: an element of a list, a character of
    a string; anything else, or an index out of range, raises. *)
Definition getitem (v : jval) (i : nat) : option jval :=
  match v with
  | JList l => l !! i
  | JStr s => match String.get i s with
              | Some c => Some (JStr (String c EmptyString))
              | None => None
              end
  | _ => None
  end.

(** A connection is named by a number. *)
Definition sock : Type := nat.

(** What the bridge does to the outside, in order: [conn.send] of a JSON
    line, [conn.close], and the [with self.lock] block that pops a job. *)
Inductive event : Type :=
| Send (conn : sock) (payload : jval)
| Close (conn : sock)
| LockAcquire
| PopJob (key : jval)
| LockRelease.

Definition DIFFICULTY : Z := 4.

Record DualBridge : Type := {
  running : bool;
  s9_conn : option sock;
  job_counter : N;
  pending_jobs : gmap string sock
}.

(** [self.pending_jobs.pop(job_id, None)].  The keys of the table are
    strings; another hashable value finds nothing; a list or a dict is
    unhashable and raises [TypeError]. *)
Definition pending_pop (pending : gmap string sock) (job_id : jval)
  : option (option sock * gmap string sock) :=
  match job_id with
  | JStr s => Some (pending !! s, delete s pending)
  | JList _ | JDict _ => None
  | _ => Some (None, pending)
  end.

(** [conn.send(...)] raises on a connection of [broken]. *)
Definition send_ok (broken : gset sock) (conn : sock) : bool :=
  bool_decide (conn ∉ broken).

Definition complete_job (broken : gset sock) (self : DualBridge)
    (job_id nonce params : jval) : py unit * DualBridge * list event :=
  match pending_pop (pending_jobs self) job_id with
  | None => (Raise, self, [LockAcquire; PopJob job_id; LockRelease])
  | Some (client, pending) =>
    let self := {| running := running self; s9_conn := s9_conn self;
                   job_counter := job_counter self; pending_jobs := pending |} in
    let locked := [LockAcquire; PopJob job_id; LockRelease] in
    match client with
    | Some client =>
      let result := JDict [("job_id"%string, job_id); ("nonce"%string, nonce);
                           ("params"%string, params); ("status"%string, JStr "success")] in
      if send_ok broken client
      then (Return tt, self, locked ++ [Send client result; Close client])
      else (Return tt, self, locked)
    | None => (Return tt, self, locked)
    end
  end.

(** [handle_stratum_message]; [parsed] is the outcome of
    [json.loads(line)], [None] when it raises. *)
Definition handle_stratum_message (broken : gset sock) (self : DualBridge)
    (conn : sock) (parsed : option jval) : py unit * DualBridge * list event :=
  match parsed with
  | Some (JDict msg) =>
    let method := dict_get msg "method" JNull in
    let msg_id := dict_get msg "id" JNull in
    match method with
    | JStr "mining.subscribe" =>
      let resp := JDict [("id"%string, msg_id);
                         ("result"%string,
                          JList [JList [JList [JStr "mining.notify";
                                               JStr "ae6812eb4cd7735a302a8a9dd95cf71f"];
                                        JStr "00000000"; JNum 4];
                                 JStr "00000000"; JNum 4]);
                         ("error"%string, JNull)] in
      if send_ok broken conn then (Return tt, self, [Send conn resp])
      else (Raise, self, [])
    | JStr "mining.authorize" =>
      let resp := JDict [("id"%string, msg_id); ("result"%string, JBool true);
                         ("error"%string, JNull)] in
      let diff_msg := JDict [("id"%string, JNull);
                             ("method"%string, JStr "mining.set_difficulty");
                             ("params"%string, JList [JNum DIFFICULTY])] in
      if send_ok broken conn
      then (Return tt, self, [Send conn resp; Send conn diff_msg])
      else (Raise, self, [])
    | JStr "mining.submit" =>
      let params := dict_get msg "params" (JList []) in
      match getitem params 1, getitem params 4 with
      | Some job_id, Some nonce =>
        let resp := JDict [("id"%string, msg_id); ("result"%string, JBool true);
                           ("error"%string, JNull)] in
        if send_ok broken conn
        then
          let '(r, self, events) := complete_job broken self job_id nonce params in
          (r, self, Send conn resp :: events)
        else (Raise, self, [])
      | _, _ => (Raise, self, [])
      end
    | _ => (Return tt, self, [])
    end
  | _ => (Raise, self, [])
  end.

End Bridge.

(** ** A reference instance of the libraries

    Signature records are dictionaries from strings to strings.  The
    instance prints and parses such a dictionary when its keys and
    values are made of printable ASCII characters other than the quote
    and the backslash, for which [json] needs no escape; anything else is
    refused by the parser. *)

Module FlatJson.

Definition record : Type := list (string * string).

Definition plain_char (b : N) : bool :=
  (32 <=? b) && (b <? 127) && negb (b =? 34) && negb (b =? 92).

Definition str_bytes (s : string) : list N := map N_of_ascii (list_ascii_of_string s).

Definition quoted (s : string) : list N := [34] ++ str_bytes s ++ [34].

Definition member (kv : string * string) : list N := quoted (fst kv) ++ [58] ++ quoted (snd kv).

Fixpoint members (r : record) : list N :=
  match r with
  | [] => []
  | [kv] => member kv
  | kv :: r' => member kv ++ [44] ++ members r'
  end.

Definition dumps (r : record) : list N := [123] ++ members r ++ [125].

(** The characters up to the closing quote, and what follows it. *)
Fixpoint parse_string (bs : list N) : option (string * list N) :=
  match bs with
  | [] => None
  | b :: bs' =>
    if b =? 34 then Some (EmptyString, bs')
    else if plain_char b then
      match parse_string bs' with
      | Some (s, rest) => Some (String (ascii_of_N b) s, rest)
      | None => None
      end
    else None
  end.

Definition parse_member (bs : list N) : option (string * string * list N) :=
  match bs with
  | 34 :: bs1 =>
    match parse_string bs1 with
    | Some (k, 58 :: 34 :: bs2) =>
      match parse_string bs2 with
      | Some (v, rest) => Some (k, v, rest)
      | None => None
      end
    | _ => None
    end
  | _ => None
  end.

Fixpoint parse_members (fuel : nat) (bs : list N) : option record :=
  match fuel with
  | O => None
  | S fuel' =>
    match parse_member bs with
    | Some (k, v, [125]) => Some [(k, v)]
    | Some (k, v, 44 :: rest) =>
      match parse_members fuel' rest with
      | Some r => Some ((k, v) :: r)
      | None => None
      end
    | _ => None
    end
  end.

Definition loads (bs : list N) : option record :=
  match bs with
  | [123; 125] => Some []
  | 123 :: bs' => parse_members (length bs') bs'
  | _ => None
  end.

(** A dictionary is true when it is not empty. *)
Definition truthy (r : record) : bool :=
  match r with
  | [] => false
  | _ :: _ => true
  end.

(** [os.path.splitext]: the extension starts at the last dot of the last
    path component, unless only dots precede it there. *)
Definition is_sep (c : ascii) : bool := Ascii.eqb c "/" || Ascii.eqb c "\".
Definition is_dot (c : ascii) : bool := Ascii.eqb c ".".

Fixpoint has_name_char (rev_prefix : list ascii) : bool :=
  match rev_prefix with
  | [] => false
  | c :: r => if is_sep c then false else if is_dot c then has_name_char r else true
  end.

Fixpoint split_rev (rev_path : list ascii) (ext : list ascii)
  : option (list ascii * list ascii) :=
  match rev_path with
  | [] => None
  | c :: r =>
    if is_sep c then None
    else if is_dot c then (if has_name_char r then Some (r, c :: ext) else None)
    else split_rev r (c :: ext)
  end.

Definition splitext (p : string) : string * string :=
  match split_rev (rev (list_ascii_of_string p)) [] with
  | Some (rev_base, ext) =>
    (string_of_list_ascii (rev rev_base), string_of_list_ascii ext)
  | None => (p, EmptyString)
  end.

#[export] Instance lib : PyLib := {
  pyobj := record;
  json_dumps_compact := dumps;
  json_loads := loads;
  py_truthy := truthy;
  splitext := splitext
}.

End FlatJson.


(** ** Auxiliary definitions for the proofs *)

(** Multiplication by [x] is linear: it is the sum of the products of
    [x] by the bits set in the other factor. *)
Definition bit_term (x a : N) (i : nat) : N :=
  if N.testbit a (N.of_nat i) then gf_mul (N.shiftl 1 (N.of_nat i)) x else 0.

Definition bit_sum (x a : N) (bits : list nat) : N :=
  fold_right (fun i acc => N.lxor (bit_term x a i) acc) 0 bits.

(** The Horner loop of [gf_poly_eval], from an initial value. *)
Definition horner (x y : N) (l : list N) : N :=
  foldl (fun y c => N.lxor (gf_mul y x) c) y l.

(** In-place xor of [vs] into [l], from the front and from position [i]. *)
Fixpoint xor_prefix (l vs : list N) : list N :=
  match l, vs with
  | a :: l', v :: vs' => N.lxor a v :: xor_prefix l' vs'
  | _, _ => l
  end.

Fixpoint xor_from (l : list N) (i : nat) (vs : list N) {struct i} : list N :=
  match i, l with
  | O, _ => xor_prefix l vs
  | S i', a :: l' => a :: xor_from l' i' vs
  | S _, [] => []
  end.



Definition is_bit (b : N) : Prop := b = 0 \/ b = 1.

(** The number of bits of the payload of a record: five copies of a
    length-prefixed, parity-expanded block. *)
Definition payload_bits `{PyLib} (R : pyobj) : nat :=
  (SIGNATURE_REPEATS * ((4 + (length (encode_signature R) + RS_NSYM)) * 8))%nat.

(** ** Concrete inputs *)

Module Examples.
#[local] Existing Instance FlatJson.lib.

Definition sig0 : FlatJson.record := [("nonce"%string, "f16823b5"%string)].


Definition img0 : Image :=
  {| height := 32; width := 24; channels := 3; pixels := replicate (32 * 24 * 3) 200 |}.
Definition img_small : Image :=
  {| height := 1; width := 1; channels := 3; pixels := [10; 20; 30] |}.

Definition fs_small : gmap string Image := {[ "art.png"%string := img_small ]}.

(** The payload of [sig0] and the array that carries it. *)
Definition P0 : list N :=
  bytes_repeat SIGNATURE_REPEATS
    ([0; 0; 0; 52] ++ rs_encode (FlatJson.dumps sig0) RS_NSYM).
Definition flat_w0 : list N := embed_bits (bytes_to_bits P0) (pixels img0).




End Examples.

(** [swab32] on the bytes of a string: every full group of four bytes is
    reversed, a shorter last group is dropped. *)
Fixpoint swab_bytes (bs : list N) : list N :=
  match bs with
  | b0 :: b1 :: b2 :: b3 :: bs' => b3 :: b2 :: b1 :: b0 :: swab_bytes bs'
  | _ => []
  end.

(** ** The search of the verifier, from the words of the specification *)









(** The metadata keys [verify_art] reads. *)
Definition read_keys : list string :=
  ["Silicon-Auth-Hash"; "Silicon-Auth-Version"; "Silicon-Auth-Extranonce2";
   "Silicon-Auth-Ntime"; "Silicon-Auth-Nonce"]%string.

Module VerifierExamples.

Definition px : list N := [1; 2; 3].

Definition meta_ok : gmap string string :=
  {[ "Silicon-Auth-Hash"%string := hex (sha256 px);
     "Silicon-Auth-Version"%string := "20000000"%string;
     "Silicon-Auth-Extranonce2"%string := "00000001"%string;
     "Silicon-Auth-Ntime"%string := "6964c85e"%string;
     "Silicon-Auth-Nonce"%string := "f16823b5"%string;
     "Silicon-Auth-Status"%string := "AUTHENTICATED_BY_BM1387"%string ]}.

Definition img_ok : PngImage := {| info := meta_ok; tobytes := px |}.

(** The same metadata on pixels that changed after signing. *)
Definition img_altered : PngImage := {| info := meta_ok; tobytes := [1; 2; 4] |}.

(** The same record with an nbits entry. *)
Definition img_nbits : PngImage :=
  {| info := <["Silicon-Auth-Nbits"%string := "207fffff"%string]> meta_ok; tobytes := px |}.


End VerifierExamples.





(** The reply of the bridge to the device and to the requester. *)
Definition submit_ack (msg_id : Bridge.jval) : Bridge.jval :=
  Bridge.JDict [("id"%string, msg_id); ("result"%string, Bridge.JBool true);
                ("error"%string, Bridge.JNull)].

Definition submit_result (job_id nonce params : Bridge.jval) : Bridge.jval :=
  Bridge.JDict [("job_id"%string, job_id); ("nonce"%string, nonce);
                ("params"%string, params); ("status"%string, Bridge.JStr "success")].

Module BridgeExamples.
Import Bridge.

Definition submit_params : jval :=
  JList [JStr "worker"; JStr "1"; JStr "00000000"; JStr "6964c85e"; JStr "deadbeef"].

Definition submit_msg : list (string * jval) :=
  [("id"%string, JNum 4); ("method"%string, JStr "mining.submit");
   ("params"%string, submit_params)].

(** Two requesters wait, for the jobs 1 and 2. *)
Definition bridge0 : DualBridge :=
  {| running := true; s9_conn := Some 3%nat; job_counter := 2;
     pending_jobs := {[ "1"%string := 7%nat; "2"%string := 8%nat ]} |}.

End BridgeExamples.

(** ** Further auxiliary definitions *)

(** The XOR of all the entries of a list. *)
Definition xor_sum (l : list N) : N := foldl N.lxor 0 l.

(** ** The dispatcher and the API side of the bridge *)

Module Dispatch.
Import Bridge.

(** Python's [f"{n:x}"]: lower-case digits, no leading zero. *)
Fixpoint hex_digits (fuel : nat) (n : N) (acc : string) : string :=
  match fuel with
  | O => acc
  | S fuel' =>
    let acc' := String (hex_digit (n mod 16)) acc in
    if n / 16 =? 0 then acc' else hex_digits fuel' (n / 16) acc'
  end.

Definition format_hex (n : N) : string :=
  hex_digits (S (N.to_nat (N.log2 n))) n EmptyString.

(** [data_hex[:64].ljust(64, '0')]. *)
Definition pad_prev_hash (data_hex : string) : string :=
  let s := str_slice data_hex 0 64 in
  (s ++ str_repeat "0" (64 - String.length s))%string.

Definition BLOCK_VERSION : string := "20000000".

(** The job message of [send_mining_notify]; [now] is [int(time.time())]. *)
Definition notify_msg (job_id prev_hash : string) (now : N) : jval :=
  let dummy_coin := str_repeat "00" 32 in
  JDict [("id"%string, JNull);
         ("method"%string, JStr "mining.notify");
         ("params"%string,
          JList [JStr job_id; JStr prev_hash; JStr dummy_coin; JStr dummy_coin;
                 JList []; JStr BLOCK_VERSION; JStr "1d00ffff";
                 JStr (format_hex now); JBool true])].

(** [send_mining_notify]: a failing send is caught and only printed. *)
Definition send_mining_notify (broken : gset sock) (self : DualBridge)
    (job_id prev_hash : string) (now : N) : list event :=
  match s9_conn self with
  | Some s9 => if send_ok broken s9 then [Send s9 (notify_msg job_id prev_hash now)] else []
  | None => []
  end.

(** One round of the loop of [start], for a request [(client, data)]
    taken from the queue.  Every exception is caught by the loop; with a
    [data] that is not a string the slice or the padding raises after the
    job was stored. *)
Definition dispatch_request (broken : gset sock) (now : N) (self : DualBridge)
    (client : sock) (data : jval) : DualBridge * list event :=
  match s9_conn self with
  | None =>
    (self,
     if send_ok broken client
     then [Send client (JDict [("error"%string, JStr "S9 not connected")]); Close client]
     else [])
  | Some _ =>
    let counter := job_counter self + 1 in
    let job_id := format_hex counter in
    let self := {| running := running self; s9_conn := s9_conn self;
                   job_counter := counter;
                   pending_jobs := <[job_id := client]> (pending_jobs self) |} in
    match data with
    | JStr data_hex =>
      let prev_hash := pad_prev_hash data_hex in
      (self, [LockAcquire; LockRelease] ++ send_mining_notify broken self job_id prev_hash now)
    | _ => (self, [LockAcquire; LockRelease])
    end
  end.

(** Python's truth value of a JSON value. *)
Definition truthy (v : jval) : bool :=
  match v with
  | JNull => false
  | JBool b => b
  | JNum n => negb (n =? 0)%Z
  | JStr s => negb (String.eqb s EmptyString)
  | JList l => match l with [] => false | _ :: _ => true end
  | JDict d => match d with [] => false | _ :: _ => true end
  end.

(** One round of [run_api_server] for an accepted [client].  [received]
    is what was read: [None] for nothing but white space, [Some None] for a
    text that [json.loads] rejects, else the parsed request.  The result is
    the pair put on the queue, if any; an exception is caught and printed,
    and the client is then left open. *)
Definition api_request (client : sock) (received : option (option jval))
  : option (sock * jval) * list event :=
  match received with
  | None => (None, [Close client])
  | Some None => (None, [])
  | Some (Some (JDict req)) =>
    let data_hex := dict_get req "data" JNull in
    if truthy data_hex then (Some (client, data_hex), []) else (None, [Close client])
  | Some (Some _) => (None, [])
  end.

(** The keys of the pending table are the identifiers handed out so far. *)
Definition ids_in_range (self : DualBridge) : Prop :=
  forall job_id client,
    pending_jobs self !! job_id = Some client ->
    exists n, 1 <= n <= job_counter self /\ job_id = format_hex n.

(** What a call of [handle_stratum_message] may do to a bridge. *)
Definition handler_ok (self : DualBridge) (conn : sock)
    (res : py unit * DualBridge * list event) : Prop :=
  let '(_, self', events) := res in
  (running self', s9_conn self', job_counter self') =
    (running self, s9_conn self, job_counter self) /\
  (forall k c, pending_jobs self' !! k = Some c -> pending_jobs self !! k = Some c) /\
  (forall c m, Send c m ∈ events ->
     c = conn \/ exists k, pending_jobs self !! k = Some c /\ pending_jobs self' !! k = None) /\
  (forall c, Close c ∈ events ->
     exists k, pending_jobs self !! k = Some c /\ pending_jobs self' !! k = None).

(** A well-formed submit message for a job, and its parameters. *)
Definition share_params (job_id nonce : string) : jval :=
  JList [JStr "worker"; JStr job_id; JStr "00000000"; JStr "6964c85e"; JStr nonce].

Definition submit_for (msg_id : jval) (job_id nonce : string) : jval :=
  JDict [("id"%string, msg_id); ("method"%string, JStr "mining.submit");
         ("params"%string, share_params job_id nonce)].

End Dispatch.

(** What [verify_art] does once the metadata and the pixel hash are
    accepted: the search, after the hash of the pixels. *)
Definition search_from (comp : components) (pixel_data : list N)
  : py bool * list hash_call :=
  let '(r, calls) := search_profiles (product (opts_values comp)) in
  (r, HashPixels pixel_data :: calls).

(** ** The signer *)

Module Signer.
Import Bridge.

(** [s.replace(old, new)] for a non-empty [old]: the occurrences are
    taken from left to right and do not overlap; [skip] counts the
    characters of an occurrence still to pass. *)
Fixpoint str_replace_go (old new : string) (skip : nat) (s : string) : string :=
  match s with
  | EmptyString => EmptyString
  | String c s' =>
    match skip with
    | S k => str_replace_go old new k s'
    | O =>
      if String.prefix old s
      then (new ++ str_replace_go old new (String.length old - 1) s')%string
      else String c (str_replace_go old new 0 s')
    end
  end.

Definition str_replace (old new s : string) : string := str_replace_go old new 0 s.

(** The request the signer writes to the bridge. *)
Definition sign_request (img : PngImage) : jval :=
  JDict [("data"%string, JStr (hex (sha256 (tobytes img))))].

(** The text entries added to the [PngInfo], as [img.info] shows them
    when the saved file is opened. *)
Definition auth_metadata (img_hash nonce extranonce2 ntime : string) : gmap string string :=
  <["Silicon-Auth-Status"%string := "AUTHENTICATED_BY_BM1387"%string]>
  (<["Silicon-Auth-Version"%string := "20000000"%string]>
  (<["Silicon-Auth-Ntime"%string := ntime]>
  (<["Silicon-Auth-Extranonce2"%string := extranonce2]>
  (<["Silicon-Auth-Nonce"%string := nonce]>
  (<["Silicon-Auth-Hash"%string := img_hash]> ∅))))).

(** [get_silicon_signature].  [reply] is the outcome of the exchange with
    the bridge: the parsed reply, or [None] when the connection, the read
    or the parse fails or the reply is empty.  [Image.open] is outside the
    [try] and raises on a missing file; every later exception makes the
    function return [None]: a reply that is not a dictionary, a missing
    key, parameters without element 2 or 3, and a value handed to
    [add_text] that is not a string.  A PNG file keeps the pixel bytes. *)
Definition get_silicon_signature (fs : gmap string PngImage) (image_path : string)
    (reply : option jval) : py (option string) * gmap string PngImage :=
  match fs !! image_path with
  | None => (Raise, fs)
  | Some img =>
    let img_hash := hex (sha256 (tobytes img)) in
    match reply with
    | Some (JDict result) =>
      match dict_lookup result "error" with
      | Some _ => (Return None, fs)
      | None =>
        match dict_lookup result "nonce", dict_lookup result "params" with
        | Some nonce, Some params =>
          match getitem params 2, getitem params 3 with
          | Some extranonce2, Some ntime =>
            match nonce, extranonce2, ntime with
            | JStr nonce, JStr extranonce2, JStr ntime =>
              let metadata := auth_metadata img_hash nonce extranonce2 ntime in
              let auth_path := str_replace ".png" "_auth.png" image_path in
              (Return (Some auth_path),
               <[auth_path := {| info := metadata; tobytes := tobytes img |}]> fs)
            | _, _, _ => (Return None, fs)
            end
          | _, _ => (Return None, fs)
          end
        | _, _ => (Return None, fs)
        end
      end
    | _ => (Return None, fs)
    end
  end.

End Signer.

Module SignerExamples.

(** An unsigned image. *)
Definition img_plain : PngImage := {| info := ∅; tobytes := [1; 2; 3] |}.

Definition fs_plain : gmap string PngImage :=
  {[ "art.png"%string := img_plain; "scan"%string := img_plain ]}.

(** A bridge without a device. *)
Definition bridge_idle : Bridge.DualBridge :=
  {| Bridge.running := true; Bridge.s9_conn := None; Bridge.job_counter := 0;
     Bridge.pending_jobs := ∅ |}.

End SignerExamples.

(** ** Proof steps *)

(** Case analysis on the membership of an event in a given trace. *)
Ltac events_in H :=
  repeat (apply elem_of_cons in H as [H | H];
          [first [discriminate H | injection H as -> | injection H as -> -> | idtac] | ]);
  try (by apply elem_of_nil in H).

(** The entry of a key in the metadata of the signer. *)
Ltac meta_lookup :=
  unfold Signer.auth_metadata; repeat (rewrite lookup_insert_ne by discriminate);
  apply lookup_insert_eq.
(** * Properties *)

(** ** Exhaustive checks over bytes *)

Lemma in_all_byte_values (x : N) : x < 256 -> In x all_byte_values.
Proof.
  intros Hx.
  change all_byte_values with (map N.of_nat (seq 0 256)).
  apply in_map_iff. exists (N.to_nat x). split; [apply N2Nat.id|].
  apply in_seq. lia.
Qed.

Lemma byte_cases (P : N -> bool) :
  forallb P all_byte_values = true -> forall x, x < 256 -> P x = true.
Proof.
  intros Hall x Hx. rewrite forallb_forall in Hall.
  apply Hall, in_all_byte_values, Hx.
Qed.

Lemma byte_cases2 (P : N -> N -> bool) :
  forallb (fun x => forallb (P x) all_byte_values) all_byte_values = true ->
  forall x y, x < 256 -> y < 256 -> P x y = true.
Proof.
  intros Hall x y Hx Hy.
  pose proof (byte_cases _ Hall x Hx) as Hrow. cbv beta in Hrow.
  apply (byte_cases _ Hrow y Hy).
Qed.

Lemma lxor_byte (a b : N) : a < 256 -> b < 256 -> N.lxor a b < 256.
Proof.
  intros Ha Hb. apply N.ltb_lt.
  apply (byte_cases2 (fun a b => N.lxor a b <? 256)); [vm_compute; reflexivity|done..].
Qed.

(** ** The field laws of [gf_mul] on bytes *)

Lemma idx_GF_EXP_byte (n : nat) : idx GF_EXP n < 256.
Proof.
  unfold idx. destruct (nth_in_or_default n GF_EXP 0) as [Hin | ->]; [|lia].
  apply N.ltb_lt.
  eapply (proj1 (forallb_forall (fun x => x <? 256) GF_EXP)); [|exact Hin].
  vm_compute. reflexivity.
Qed.

Lemma gf_mul_byte (x y : N) : gf_mul x y < 256.
Proof.
  unfold gf_mul. destruct (_ || _); [lia | apply idx_GF_EXP_byte].
Qed.

Lemma gf_mul_comm (x y : N) : gf_mul x y = gf_mul y x.
Proof. unfold gf_mul. rewrite orb_comm, N.add_comm. reflexivity. Qed.

Lemma gf_mul_0_l (x : N) : gf_mul 0 x = 0.
Proof. reflexivity. Qed.

Lemma gf_mul_0_r (x : N) : gf_mul x 0 = 0.
Proof. rewrite gf_mul_comm. reflexivity. Qed.

Lemma gf_mul_1_l (x : N) : x < 256 -> gf_mul 1 x = x.
Proof.
  intros Hx. apply N.eqb_eq.
  apply (byte_cases (fun x => gf_mul 1 x =? x)); [vm_compute; reflexivity | done].
Qed.

(** The tables are inverse to each other on the non-zero bytes. *)
Lemma exp_log (x : N) : x < 256 -> x <> 0 ->
  idx GF_LOG (N.to_nat x) < 255 /\ idx GF_EXP (N.to_nat (idx GF_LOG (N.to_nat x))) = x.
Proof.
  intros Hx Hx0.
  pose proof (byte_cases
    (fun x => (x =? 0) || ((idx GF_LOG (N.to_nat x) <? 255)
               && (idx GF_EXP (N.to_nat (idx GF_LOG (N.to_nat x))) =? x)))) as Hc.
  specialize (Hc ltac:(vm_compute; reflexivity) x Hx). cbv beta in Hc.
  apply orb_true_iff in Hc. destruct Hc as [Hc | Hc].
  - apply N.eqb_eq in Hc. contradiction.
  - apply andb_true_iff in Hc. destruct Hc as [H1 H2].
    apply N.ltb_lt in H1. apply N.eqb_eq in H2. done.
Qed.

Lemma log_exp (k : N) : k < 255 ->
  idx GF_EXP (N.to_nat k) <> 0 /\ idx GF_LOG (N.to_nat (idx GF_EXP (N.to_nat k))) = k.
Proof.
  intros Hk.
  pose proof (byte_cases
    (fun k => (255 <=? k) || (negb (idx GF_EXP (N.to_nat k) =? 0)
               && (idx GF_LOG (N.to_nat (idx GF_EXP (N.to_nat k))) =? k)))) as Hc.
  specialize (Hc ltac:(vm_compute; reflexivity) k ltac:(lia)). cbv beta in Hc.
  apply orb_true_iff in Hc. destruct Hc as [Hc | Hc].
  - apply N.leb_le in Hc. lia.
  - apply andb_true_iff in Hc. destruct Hc as [H1 H2].
    apply negb_true_iff, N.eqb_neq in H1. apply N.eqb_eq in H2. done.
Qed.

Lemma gf_mul_nonzero (x y : N) : x <> 0 -> y <> 0 ->
  gf_mul x y = idx GF_EXP (N.to_nat ((idx GF_LOG (N.to_nat x) + idx GF_LOG (N.to_nat y)) mod 255)).
Proof.
  intros Hx Hy. unfold gf_mul.
  apply N.eqb_neq in Hx, Hy. rewrite Hx, Hy. reflexivity.
Qed.

(** Products of three factors, through the logarithms. *)
Lemma gf_mul_mul_log (x y z : N) :
  x < 256 -> y < 256 -> z < 256 -> x <> 0 -> y <> 0 -> z <> 0 ->
  gf_mul (gf_mul x y) z =
  idx GF_EXP (N.to_nat ((idx GF_LOG (N.to_nat x) + idx GF_LOG (N.to_nat y)
                         + idx GF_LOG (N.to_nat z)) mod 255)).
Proof.
  intros Hx Hy Hz Hx0 Hy0 Hz0.
  rewrite (gf_mul_nonzero x y) by done.
  set (k := (idx GF_LOG (N.to_nat x) + idx GF_LOG (N.to_nat y)) mod 255).
  assert (Hk : k < 255) by (apply N.mod_upper_bound; lia).
  destruct (log_exp k Hk) as [Hne Hlog].
  rewrite gf_mul_nonzero by done. rewrite Hlog.
  unfold k. rewrite N.Div0.add_mod_idemp_l. reflexivity.
Qed.

Lemma gf_mul_swap_r (x y z : N) :
  x < 256 -> y < 256 -> z < 256 ->
  gf_mul (gf_mul x y) z = gf_mul (gf_mul x z) y.
Proof.
  intros Hx Hy Hz.
  destruct (N.eq_dec x 0) as [-> | Hx0]; [reflexivity|].
  destruct (N.eq_dec y 0) as [-> | Hy0]; [by rewrite !gf_mul_0_r|].
  destruct (N.eq_dec z 0) as [-> | Hz0]; [by rewrite !gf_mul_0_r|].
  rewrite !gf_mul_mul_log by done.
  do 2 f_equal. f_equal. lia.
Qed.

Lemma lxor_shuffle (a b c d : N) :
  N.lxor (N.lxor a b) (N.lxor c d) = N.lxor (N.lxor a c) (N.lxor b d).
Proof.
  rewrite !N.lxor_assoc. f_equal.
  rewrite <- !N.lxor_assoc. f_equal. apply N.lxor_comm.
Qed.

Lemma bit_sum_lxor (x a b : N) (bits : list nat) :
  bit_sum x (N.lxor a b) bits = N.lxor (bit_sum x a bits) (bit_sum x b bits).
Proof.
  induction bits as [|i bits IH]; [reflexivity|].
  cbn [bit_sum fold_right]. fold (bit_sum x (N.lxor a b) bits).
  fold (bit_sum x a bits). fold (bit_sum x b bits).
  rewrite IH, lxor_shuffle. f_equal.
  unfold bit_term. rewrite N.lxor_spec.
  destruct (N.testbit a _), (N.testbit b _); cbn [xorb].
  - by rewrite N.lxor_nilpotent.
  - by rewrite N.lxor_0_r.
  - by rewrite N.lxor_0_l.
  - reflexivity.
Qed.

Lemma gf_mul_bit_sum (a x : N) : a < 256 -> x < 256 ->
  gf_mul a x = bit_sum x a (seq 0 8).
Proof.
  intros Ha Hx. apply N.eqb_eq.
  apply (byte_cases2 (fun a x => gf_mul a x =? bit_sum x a (seq 0 8)));
    [vm_compute; reflexivity | done..].
Qed.

Lemma gf_mul_lxor_l (a b x : N) : a < 256 -> b < 256 -> x < 256 ->
  gf_mul (N.lxor a b) x = N.lxor (gf_mul a x) (gf_mul b x).
Proof.
  intros Ha Hb Hx.
  rewrite !gf_mul_bit_sum by auto using lxor_byte.
  apply bit_sum_lxor.
Qed.
(** ** Reed-Solomon: the encoder leaves a codeword *)

Lemma gf_poly_eval_horner (poly : list N) (x : N) :
  poly <> [] -> gf_poly_eval poly x = Some (horner x 0 poly).
Proof.
  destruct poly as [|p0 rest]; [done|]. intros _.
  unfold gf_poly_eval, horner. cbn [foldl].
  rewrite gf_mul_0_l, N.lxor_0_l. reflexivity.
Qed.

Lemma horner_app (x y : N) (l1 l2 : list N) :
  horner x y (l1 ++ l2) = horner x (horner x y l1) l2.
Proof. apply foldl_app. Qed.

Lemma horner_byte (x y : N) (l : list N) :
  y < 256 -> is_bytes l -> horner x y l < 256.
Proof.
  intros Hy Hl. revert y Hy. induction Hl as [|c l Hc Hl IH]; intros y Hy; [done|].
  cbn. apply IH. apply lxor_byte; [apply gf_mul_byte | exact Hc].
Qed.

Lemma horner_zeros (x : N) (n : nat) : horner x 0 (replicate n 0) = 0.
Proof. induction n as [|n IH]; [reflexivity|]. cbn. exact IH. Qed.

Lemma horner_zip_lxor (x : N) (l1 l2 : list N) (y z : N) :
  x < 256 -> y < 256 -> z < 256 -> is_bytes l1 -> is_bytes l2 ->
  length l1 = length l2 ->
  horner x (N.lxor y z) (zip_with N.lxor l1 l2) = N.lxor (horner x y l1) (horner x z l2).
Proof.
  intros Hx Hy Hz H1. revert l2 y z Hy Hz.
  induction H1 as [|a l1 Ha H1 IH]; intros [|b l2] y z Hy Hz H2 Hlen;
    try discriminate; [reflexivity|].
  apply Forall_cons in H2 as [Hb H2]. cbn.
  rewrite gf_mul_lxor_l, lxor_shuffle by done.
  apply IH; auto using lxor_byte, gf_mul_byte.
Qed.

Lemma horner_scale (x coef y : N) (l : list N) :
  x < 256 -> coef < 256 -> y < 256 -> is_bytes l ->
  horner x (gf_mul y coef) (map (fun g => gf_mul g coef) l) = gf_mul (horner x y l) coef.
Proof.
  intros Hx Hc Hy Hl. revert y Hy.
  induction Hl as [|c l Hcb Hl IH]; intros y Hy; [reflexivity|].
  cbn. rewrite (gf_mul_swap_r y coef x), <- gf_mul_lxor_l by auto using gf_mul_byte.
  apply IH. apply lxor_byte; [apply gf_mul_byte | done].
Qed.

Lemma horner_xor_prefix (x : N) (vs l : list N) (y z : N) :
  x < 256 -> y < 256 -> z < 256 -> is_bytes vs -> is_bytes l ->
  (length vs <= length l)%nat ->
  horner x (N.lxor y z) (xor_prefix l vs) =
  horner x (N.lxor (horner x y (take (length vs) l)) (horner x z vs)) (drop (length vs) l).
Proof.
  intros Hx Hy Hz Hvs. revert l y z Hy Hz.
  induction Hvs as [|v vs Hv Hvs IH]; intros l y z Hy Hz Hl Hlen.
  - destruct l; reflexivity.
  - destruct l as [|a l]; [cbn in Hlen; lia|].
    apply Forall_cons in Hl as [Ha Hl]. cbn in Hlen. cbn.
    rewrite gf_mul_lxor_l, lxor_shuffle by done.
    apply IH; auto using lxor_byte, gf_mul_byte. lia.
Qed.

(** Xoring in a multiple of a polynomial that vanishes at [x] does not
    change the value at [x]. *)
Lemma horner_xor_from (x : N) (vs : list N) (i : nat) (l : list N) (y : N) :
  x < 256 -> y < 256 -> is_bytes vs -> is_bytes l ->
  (i + length vs <= length l)%nat -> horner x 0 vs = 0 ->
  horner x y (xor_from l i vs) = horner x y l.
Proof.
  intros Hx Hy Hvs Hl Hlen Hroot. revert l y Hy Hl Hlen.
  induction i as [|i IH]; intros l y Hy Hl Hlen.
  - cbn [xor_from].
    pose proof (horner_xor_prefix x vs l y 0 Hx Hy ltac:(lia) Hvs Hl ltac:(lia)) as E.
    rewrite Hroot, !N.lxor_0_r, <- horner_app, take_drop in E. exact E.
  - destruct l as [|a l]; [cbn in Hlen; lia|].
    apply Forall_cons in Hl as [Ha Hl]. cbn in Hlen. cbn.
    apply IH; auto using lxor_byte, gf_mul_byte. lia.
Qed.

Lemma xor_prefix_bytes (l vs : list N) : is_bytes l -> is_bytes vs -> is_bytes (xor_prefix l vs).
Proof.
  intros Hl. revert vs. induction Hl as [|a l Ha Hl IH]; intros vs Hvs; [destruct vs; constructor|].
  destruct Hvs as [|v vs Hv Hvs]; cbn; [by constructor|].
  constructor; [by apply lxor_byte | by apply IH].
Qed.

Lemma xor_from_bytes (l : list N) (i : nat) (vs : list N) :
  is_bytes l -> is_bytes vs -> is_bytes (xor_from l i vs).
Proof.
  intros Hl Hvs. revert l Hl. induction i as [|i IH]; intros l Hl.
  - by apply xor_prefix_bytes.
  - destruct Hl as [|a l Ha Hl]; cbn; [constructor|]. constructor; [done | by apply IH].
Qed.

Lemma xor_prefix_length (l vs : list N) : length (xor_prefix l vs) = length l.
Proof.
  revert vs. induction l as [|a l IH]; intros [|v vs]; cbn; auto.
Qed.

Lemma xor_from_length (l : list N) (i : nat) (vs : list N) :
  length (xor_from l i vs) = length l.
Proof.
  revert l. induction i as [|i IH]; intros l; [apply xor_prefix_length|].
  destruct l; cbn; auto.
Qed.

Lemma xor_from_take (l : list N) (i : nat) (vs : list N) :
  take i (xor_from l i vs) = take i l.
Proof.
  revert l. induction i as [|i IH]; intros l; [reflexivity|].
  destruct l; cbn; [reflexivity|]. by rewrite IH.
Qed.

Lemma xor_from_idx (l : list N) (i : nat) (v : N) (vs : list N) :
  (i < length l)%nat -> idx (xor_from l i (v :: vs)) i = N.lxor (idx l i) v.
Proof.
  revert l. induction i as [|i IH]; intros l Hlen.
  - destruct l; [cbn in Hlen; lia | reflexivity].
  - destruct l; [cbn in Hlen; lia|]. cbn in Hlen. cbn [xor_from].
    unfold idx in *. cbn [nth]. apply IH. lia.
Qed.

(** The loops of the source compute [xor_from]. *)
Lemma xor_at_cons_S (a : N) (l : list N) (k : nat) (v : N) :
  xor_at (a :: l) (S k) v = a :: xor_at l k v.
Proof. unfold xor_at. cbn. destruct (l !! k); reflexivity. Qed.

Lemma fold_xor_at_cons (f : nat -> N) (a : N) (js : list nat) (i : nat) (l : list N) :
  foldl (fun m j => xor_at m (S i + j) (f j)) (a :: l) js =
  a :: foldl (fun m j => xor_at m (i + j) (f j)) l js.
Proof.
  revert l. induction js as [|j js IH]; intros l; [reflexivity|].
  cbn [foldl]. change (S i + j)%nat with (S (i + j)).
  rewrite xor_at_cons_S. apply IH.
Qed.

Lemma fold_xor_at_prefix (n : nat) (f : nat -> N) (l : list N) :
  (n <= length l)%nat ->
  foldl (fun m j => xor_at m (0 + j) (f j)) l (seq 0 n) = xor_prefix l (map f (seq 0 n)).
Proof.
  revert f l. induction n as [|n IH]; intros f l Hlen; [by destruct l|].
  destruct l as [|a l]; [cbn in Hlen; lia|]. cbn in Hlen.
  cbn [seq map foldl xor_prefix]. rewrite <- seq_shift, map_map.
  change (xor_at (a :: l) (0 + 0) (f 0%nat)) with (N.lxor a (f 0%nat) :: l).
  rewrite <- (IH (fun j => f (S j)) l) by lia.
  rewrite foldl_fmap.
  apply (fold_xor_at_cons (fun j => f (S j)) (N.lxor a (f 0%nat)) (seq 0 n) 0 l).
Qed.

Lemma fold_xor_at_from (n : nat) (f : nat -> N) (i : nat) (l : list N) :
  (i + n <= length l)%nat ->
  foldl (fun m j => xor_at m (i + j) (f j)) l (seq 0 n) = xor_from l i (map f (seq 0 n)).
Proof.
  revert l. induction i as [|i IH]; intros l Hlen.
  - by apply fold_xor_at_prefix.
  - destruct l as [|a l]; [cbn in Hlen; lia|]. cbn in Hlen.
    rewrite fold_xor_at_cons. cbn [xor_from]. f_equal. apply IH. lia.
Qed.

Lemma map_idx_seq (f : N -> N) (gen : list N) :
  map (fun j => f (idx gen j)) (seq 0 (length gen)) = map f gen.
Proof.
  induction gen as [|g gen IH]; [reflexivity|].
  cbn [length seq map]. f_equal. rewrite <- seq_shift, map_map. exact IH.
Qed.

Lemma rs_encode_inner_xor_from (gen : list N) (coef : N) (i : nat) (msg_out : list N) :
  (i + length gen <= length msg_out)%nat ->
  rs_encode_inner gen coef i msg_out =
  xor_from msg_out i (map (fun g => gf_mul g coef) gen).
Proof.
  intros Hlen. unfold rs_encode_inner.
  rewrite (fold_xor_at_from (length gen) (fun j => gf_mul (idx gen j) coef)) by done.
  f_equal. apply (map_idx_seq (fun g => gf_mul g coef)).
Qed.

Lemma idx_byte (l : list N) (i : nat) : is_bytes l -> idx l i < 256.
Proof.
  intros Hl. revert i. induction Hl as [|a l Ha Hl IH]; intros [|i]; cbn; try done.
  apply IH.
Qed.

Lemma idx_lookup (l : list N) (i : nat) : (i < length l)%nat -> l !! i = Some (idx l i).
Proof.
  revert i. induction l as [|a l IH]; intros [|i] Hi; cbn in *; try lia; [done|].
  apply IH. lia.
Qed.

Lemma is_bytes_replicate_0 (n : nat) : is_bytes (replicate n 0).
Proof. apply Forall_replicate. done. Qed.

Lemma is_bytes_map_gf_mul (coef : N) (l : list N) : is_bytes (map (fun g => gf_mul g coef) l).
Proof. apply Forall_forall. intros y Hy. apply list_elem_of_fmap in Hy as [g [-> _]]. apply gf_mul_byte. Qed.

Section Encoder.
Variable nsym : nat.
Variable gen' : list N.
Let gen : list N := 1 :: gen'.
Hypothesis gen_bytes : is_bytes gen.
Hypothesis gen_length : length gen = S nsym.

Lemma rs_encode_step_inv (data msg : list N) (n : nat) :
  (n < length data)%nat ->
  length msg = (length data + nsym)%nat ->
  is_bytes msg ->
  take n msg = replicate n 0 ->
  let msg' := rs_encode_step gen msg n in
  length msg' = (length data + nsym)%nat /\
  is_bytes msg' /\
  take (S n) msg' = replicate (S n) 0 /\
  (forall x, x < 256 -> horner x 0 gen = 0 -> horner x 0 msg' = horner x 0 msg).
Proof.
  intros Hn Hlen Hb Hzero. unfold rs_encode_step.
  assert (Hcoef : idx msg n < 256) by (by apply idx_byte).
  destruct (N.eqb_spec (idx msg n) 0) as [E | E]; cbv zeta.
  - repeat split; try done.
    rewrite (take_S_r msg n (idx msg n)) by (apply idx_lookup; lia).
    rewrite Hzero, E. symmetry. apply replicate_S_end.
  - rewrite rs_encode_inner_xor_from by (rewrite gen_length; lia).
    set (vs := map (fun g => gf_mul g (idx msg n)) gen).
    assert (Hvs : is_bytes vs) by apply is_bytes_map_gf_mul.
    assert (Hlen' : length (xor_from msg n vs) = (length data + nsym)%nat)
      by (by rewrite xor_from_length).
    repeat split; try done.
    + by apply xor_from_bytes.
    + rewrite (take_S_r _ n (idx (xor_from msg n vs) n)) by (apply idx_lookup; lia).
      rewrite xor_from_take, Hzero. unfold vs, gen. cbn [map].
      rewrite xor_from_idx by lia.
      rewrite gf_mul_1_l, N.lxor_nilpotent by done.
      symmetry. apply replicate_S_end.
    + intros x Hx Hroot. apply horner_xor_from; try done.
      * unfold vs. rewrite length_map, gen_length. lia.
      * unfold vs. rewrite <- (gf_mul_0_l (idx msg n)) at 1.
        rewrite horner_scale by (done || lia). rewrite Hroot. reflexivity.
Qed.

Lemma rs_encode_loop_inv (data : list N) (n : nat) :
  is_bytes data -> (n <= length data)%nat ->
  let msg := foldl (rs_encode_step gen) (data ++ replicate nsym 0) (seq 0 n) in
  length msg = (length data + nsym)%nat /\
  is_bytes msg /\
  take n msg = replicate n 0 /\
  (forall x, x < 256 -> horner x 0 gen = 0 ->
             horner x 0 msg = horner x 0 (data ++ replicate nsym 0)).
Proof.
  intros Hdata. induction n as [|n IH]; intros Hn; cbv zeta.
  - cbn [seq foldl]. repeat split; try done.
    + rewrite length_app, length_replicate. reflexivity.
    + apply Forall_app. split; [done | apply is_bytes_replicate_0].
  - rewrite seq_S, foldl_snoc. cbn [Nat.add].
    destruct (IH ltac:(lia)) as (Hlen & Hb & Hz & Hh).
    destruct (rs_encode_step_inv data _ n ltac:(lia) Hlen Hb Hz) as (Hlen' & Hb' & Hz' & Hh').
    repeat split; try done.
    intros x Hx Hroot. rewrite Hh', Hh by done. reflexivity.
Qed.

(** The codeword vanishes at every root of the generator. *)
Lemma rs_encode_root (data : list N) (x : N) :
  is_bytes data -> x < 256 -> horner x 0 gen = 0 ->
  let msg := foldl (rs_encode_step gen) (data ++ replicate nsym 0) (seq 0 (length data)) in
  length (drop (length data) msg) = nsym /\
  is_bytes (drop (length data) msg) /\
  horner x 0 (data ++ drop (length data) msg) = 0.
Proof.
  intros Hdata Hx Hroot msg.
  destruct (rs_encode_loop_inv data (length data) Hdata ltac:(lia))
    as (Hlen & Hb & Hz & Hh).
  fold msg in Hlen, Hb, Hz, Hh.
  set (rem := drop (length data) msg).
  assert (Hrl : length rem = nsym) by (unfold rem; rewrite length_drop; lia).
  assert (Hrb : is_bytes rem) by (by apply Forall_drop).
  repeat split; try done.
  specialize (Hh x Hx Hroot).
  rewrite <- (take_drop (length data) msg), Hz in Hh. fold rem in Hh.
  rewrite !horner_app, horner_zeros in Hh.
  rewrite horner_app.
  set (y := horner x 0 data) in *.
  assert (Hy : y < 256) by (apply horner_byte; [lia | done]).
  pose proof (horner_zip_lxor x (replicate nsym 0) rem y 0 Hx Hy ltac:(lia)
                (is_bytes_replicate_0 nsym) Hrb) as Hz2.
  rewrite length_replicate in Hz2. specialize (Hz2 (eq_sym Hrl)).
  rewrite N.lxor_0_r in Hz2.
  assert (Hzip : zip_with N.lxor (replicate nsym 0) rem = rem).
  { clear -Hrl. revert Hrl. generalize nsym. induction rem as [|r rem' IH]; intros k Hk.
    - by destruct k.
    - destruct k; [discriminate|]. cbn. rewrite N.lxor_0_l. f_equal. apply IH.
      cbn in Hk. lia. }
  rewrite Hzip in Hz2. rewrite Hz2, Hh. apply N.lxor_nilpotent.
Qed.

End Encoder.

Lemma generator_32 :
  rs_generator_poly RS_NSYM =
  1 :: [116; 64; 52; 174; 54; 126; 16; 194; 162; 33; 33; 157; 176; 197; 225; 12;
        59; 55; 253; 228; 148; 47; 179; 185; 24; 138; 253; 20; 142; 55; 172; 88].
Proof. vm_compute. reflexivity. Qed.

Lemma generator_32_bytes : is_bytes (rs_generator_poly RS_NSYM).
Proof.
  apply Forall_forall. intros x Hx. apply list_elem_of_In in Hx. apply N.ltb_lt.
  revert x Hx. apply forallb_forall. vm_compute. reflexivity.
Qed.

Lemma generator_32_roots (i : nat) :
  (i < RS_NSYM)%nat -> horner (idx GF_EXP i) 0 (rs_generator_poly RS_NSYM) = 0.
Proof.
  intros Hi. apply N.eqb_eq.
  apply (proj1 (forallb_forall
    (fun i => horner (idx GF_EXP i) 0 (rs_generator_poly RS_NSYM) =? 0) (seq 0 RS_NSYM)));
    [vm_compute; reflexivity | apply in_seq; lia].
Qed.

Lemma mapM_const {A B} (f : A -> option B) (c : B) (l : list A) :
  (forall a, In a l -> f a = Some c) -> mapM f l = Some (replicate (length l) c).
Proof.
  induction l as [|a l IH]; intros Hf; [reflexivity|].
  cbn. rewrite (Hf a) by (by left). cbn. rewrite IH by (intros; apply Hf; by right).
  reflexivity.
Qed.

Lemma max_is_zero_replicate (n : nat) : max_is_zero (replicate n 0) = true.
Proof. induction n; [reflexivity | exact IHn]. Qed.

Lemma rs_encode_parity (data : list N) :
  is_bytes data ->
  exists parity, rs_encode data RS_NSYM = data ++ parity /\
                 length parity = RS_NSYM /\ is_bytes parity /\
                 forall i, (i < RS_NSYM)%nat -> horner (idx GF_EXP i) 0 (data ++ parity) = 0.
Proof.
  intros Hdata. unfold rs_encode.
  pose proof generator_32_bytes as Hgb. pose proof generator_32_roots as Hroots.
  rewrite generator_32 in *.
  eexists. split; [reflexivity|].
  split; [|split].
  - eapply (rs_encode_root RS_NSYM _ Hgb eq_refl data (idx GF_EXP 0) Hdata);
      [apply idx_GF_EXP_byte | apply Hroots; unfold RS_NSYM; lia].
  - eapply (rs_encode_root RS_NSYM _ Hgb eq_refl data (idx GF_EXP 0) Hdata);
      [apply idx_GF_EXP_byte | apply Hroots; unfold RS_NSYM; lia].
  - intros i Hi.
    eapply (rs_encode_root RS_NSYM _ Hgb eq_refl data _ Hdata);
      [apply idx_GF_EXP_byte | by apply Hroots].
Qed.

Lemma rs_encode_bytes (data : list N) : is_bytes data -> is_bytes (rs_encode data RS_NSYM).
Proof.
  intros Hdata. destruct (rs_encode_parity data Hdata) as (parity & -> & _ & Hp & _).
  by apply Forall_app.
Qed.

Lemma rs_encode_length (data : list N) :
  is_bytes data -> length (rs_encode data RS_NSYM) = (length data + RS_NSYM)%nat.
Proof.
  intros Hdata. destruct (rs_encode_parity data Hdata) as (parity & -> & Hl & _).
  rewrite length_app, Hl. reflexivity.
Qed.

Lemma rs_syndromes_encode (data : list N) :
  is_bytes data ->
  rs_syndromes (rs_encode data RS_NSYM) RS_NSYM = Some (replicate (S RS_NSYM) 0).
Proof.
  intros Hdata. destruct (rs_encode_parity data Hdata) as (parity & -> & Hl & _ & Hroot).
  unfold rs_syndromes.
  rewrite (mapM_const _ 0).
  - rewrite length_seq. reflexivity.
  - intros i Hi. apply in_seq in Hi. rewrite gf_poly_eval_horner.
    + f_equal. apply Hroot. lia.
    + intros E. apply (f_equal length) in E. rewrite length_app, Hl in E. cbn in E. lia.
Qed.

Lemma rs_decode_encode (data : list N) :
  is_bytes data -> rs_decode_simple (rs_encode data RS_NSYM) RS_NSYM = Some data.
Proof.
  intros Hdata. unfold rs_decode_simple. rewrite rs_syndromes_encode by done.
  cbn [mbind option_bind]. rewrite max_is_zero_replicate.
  destruct (rs_encode_parity data Hdata) as (parity & -> & Hl & _).
  unfold drop_last. rewrite length_app, Hl.
  replace (length data + RS_NSYM - RS_NSYM)%nat with (length data) by lia.
  rewrite take_app_length. reflexivity.
Qed.

(** C5: [rs_encode] with [RS_NSYM] parity symbols is systematic: the
    codeword is the data followed by [RS_NSYM] bytes, all the syndromes
    recomputed on it are zero, and [rs_decode_simple] returns the data. *)
Theorem rs_encode_systematic (data : list N) :
  is_bytes data ->
  length (rs_encode data RS_NSYM) = (length data + RS_NSYM)%nat /\
  take (length data) (rs_encode data RS_NSYM) = data /\
  rs_syndromes (rs_encode data RS_NSYM) RS_NSYM = Some (replicate (S RS_NSYM) 0) /\
  rs_decode_simple (rs_encode data RS_NSYM) RS_NSYM = Some data.
Proof.
  intros Hdata. split; [by apply rs_encode_length|].
  split; [|split; [by apply rs_syndromes_encode | by apply rs_decode_encode]].
  destruct (rs_encode_parity data Hdata) as (parity & -> & _).
  apply take_app_length.
Qed.

Lemma rs_encode_systematic_witness :
  let data := [104; 101; 108; 108; 111] in
  is_bytes data /\
  length (rs_encode data RS_NSYM) = (length data + RS_NSYM)%nat /\
  take (length data) (rs_encode data RS_NSYM) = data /\
  rs_syndromes (rs_encode data RS_NSYM) RS_NSYM = Some (replicate (S RS_NSYM) 0) /\
  rs_decode_simple (rs_encode data RS_NSYM) RS_NSYM = Some data.
Proof.
  assert (Hb : is_bytes [104; 101; 108; 108; 111])
    by (repeat constructor).
  split; [exact Hb | exact (rs_encode_systematic _ Hb)].
Defined.
(** ** Bits and bytes of the watermark *)

Lemma byte_bits_length (b : N) : length (byte_bits b) = 8%nat.
Proof. reflexivity. Qed.

Lemma land_1_is_bit (b : N) : is_bit (N.land b 1).
Proof.
  assert (H : N.land b 1 = b mod 2) by (apply (N.land_ones b 1)).
  pose proof (N.mod_upper_bound b 2 ltac:(lia)). unfold is_bit. lia.
Qed.

Lemma byte_bits_are_bits (b : N) : Forall is_bit (byte_bits b).
Proof.
  unfold byte_bits. apply Forall_forall. intros x Hx.
  apply list_elem_of_fmap in Hx as [i [-> _]]. apply land_1_is_bit.
Qed.

Lemma bytes_to_bits_acc (acc : list N) (l : list N) :
  foldl (fun bits byte => bits ++ byte_bits byte) acc l = acc ++ flat_map byte_bits l.
Proof.
  revert acc. induction l as [|b l IH]; intros acc; cbn [foldl flat_map].
  - by rewrite app_nil_r.
  - rewrite IH, <- app_assoc. reflexivity.
Qed.

Lemma bytes_to_bits_flat_map (l : list N) : bytes_to_bits l = flat_map byte_bits l.
Proof. apply (bytes_to_bits_acc [] l). Qed.


Lemma bytes_to_bits_cons (b : N) (l : list N) :
  bytes_to_bits (b :: l) = byte_bits b ++ bytes_to_bits l.
Proof. rewrite !bytes_to_bits_flat_map. reflexivity. Qed.

Lemma bytes_to_bits_length (l : list N) : length (bytes_to_bits l) = (8 * length l)%nat.
Proof.
  induction l as [|b l IH]; [reflexivity|].
  rewrite bytes_to_bits_cons, length_app, IH, byte_bits_length. cbn [length]. lia.
Qed.

Lemma bytes_to_bits_are_bits (l : list N) : Forall is_bit (bytes_to_bits l).
Proof.
  induction l as [|b l IH]; [constructor|].
  rewrite bytes_to_bits_cons. apply Forall_app. split; [apply byte_bits_are_bits | exact IH].
Qed.

(** *** The embedding loop *)








(** *** The length header *)




Lemma bits_to_int_byte (b : N) : b < 256 -> bits_to_int (byte_bits b) = b.
Proof.
  intros Hb. apply N.eqb_eq.
  apply (byte_cases (fun b => bits_to_int (byte_bits b) =? b)); [vm_compute; reflexivity | done].
Qed.




(** *** Reading the copies back *)

Lemma foldl_ext_in {A B} (f g : A -> B -> A) (a : A) (l : list B) :
  (forall acc x, In x l -> f acc x = g acc x) -> foldl f a l = foldl g a l.
Proof.
  revert a. induction l as [|x l IH]; intros a Hfg; [reflexivity|].
  cbn [foldl]. rewrite (Hfg a x) by (by left). apply IH.
  intros acc y Hy. apply Hfg. by right.
Qed.

Lemma py_range_0_8 (m : nat) :
  py_range 0 (Z.of_nat m) 8 = map (fun k => Z.of_nat (8 * k)) (seq 0 ((m + 7) / 8)).
Proof.
  unfold py_range. cbn [Z.ltb Z.compare].
  replace (Z.to_nat ((Z.of_nat m - 0 + 8 - 1) / 8)) with ((m + 7) / 8)%nat.
  - apply map_ext. intros k. lia.
  - replace (Z.of_nat m - 0 + 8 - 1)%Z with (Z.of_nat (m + 7)) by lia.
    change 8%Z with (Z.of_nat 8). rewrite <- Nat2Z.inj_div, Nat2Z.id. reflexivity.
Qed.

Lemma idx_app_r (l1 l2 : list N) (i : nat) : idx (l1 ++ l2) (length l1 + i) = idx l2 i.
Proof. unfold idx. rewrite app_nth2_plus. reflexivity. Qed.

Lemma bits_to_bytes_cons (b : N) (rest : list N) :
  b < 256 -> bits_to_bytes (byte_bits b ++ rest) = b :: bits_to_bytes rest.
Proof.
  intros Hb. unfold bits_to_bytes.
  rewrite length_app, byte_bits_length, !py_range_0_8.
  replace ((8 + length rest + 7) / 8)%nat with (S ((length rest + 7) / 8)).
  2:{ replace (8 + length rest + 7)%nat with (1 * 8 + (length rest + 7))%nat by lia.
      rewrite Nat.div_add_l by lia. reflexivity. }
  cbn [seq map]. f_equal.
  - transitivity (bits_to_int (byte_bits b)); [reflexivity | by apply bits_to_int_byte].
  - rewrite <- seq_shift, !map_map. apply map_ext. intros k.
    apply foldl_ext_in. intros acc j Hj.
    rewrite !Nat2Z.id.
    replace (8 * S k + j)%nat with (length (byte_bits b) + (8 * k + j))%nat
      by (rewrite byte_bits_length; lia).
    rewrite idx_app_r, byte_bits_length.
    destruct (Nat.ltb_spec (8 + (8 * k + j)) (8 + length rest)),
             (Nat.ltb_spec (8 * k + j) (length rest)); (reflexivity || lia).
Qed.

Lemma bits_to_bytes_bits (enc : list N) :
  is_bytes enc -> bits_to_bytes (bytes_to_bits enc) = enc.
Proof.
  induction 1 as [|b enc Hb Henc IH]; [reflexivity|].
  rewrite bytes_to_bits_cons, bits_to_bytes_cons by done. by rewrite IH.
Qed.



Section Extraction.
Context `{PyLib}.






End Extraction.



Section Watermark.
Context `{PyLib}.




End Watermark.


Section WatermarkClaims.
Context `{PyLib}.









(** C7: when the payload has more bits than the image has channel
    bytes, [embed_watermark] returns [None] and writes no file. *)
Theorem embed_capacity_rejection (fs : gmap string Image) (image_path : string)
    (img : Image) (R : pyobj) (P : list N) (output_path : option string) :
  fs !! image_path = Some img ->
  watermark_payload R = Some P ->
  (height img * width img * channels img < length (bytes_to_bits P))%nat ->
  embed_watermark fs image_path R output_path = (Return None, fs).
Proof.
  intros Himg HP Hcap. unfold embed_watermark. rewrite Himg, HP.
  destruct (Nat.ltb_spec (height img * width img * channels img)
                         (length (bytes_to_bits P))) as [_ | Hge]; [reflexivity | lia].
Qed.


End WatermarkClaims.

(** *** The claims on concrete images *)

Section WatermarkExamples.
Import Examples.
#[local] Existing Instance FlatJson.lib.




Lemma sig0_payload : watermark_payload sig0 = Some P0.
Proof. vm_compute. reflexivity. Defined.





Lemma embed_capacity_rejection_witness :
  embed_watermark fs_small "art.png" sig0 None = (Return None, fs_small).
Proof.
  apply (@embed_capacity_rejection FlatJson.lib fs_small "art.png" img_small sig0 P0 None).
  - reflexivity.
  - exact sig0_payload.
  - vm_compute. lia.
Defined.





End WatermarkExamples.
(** ** Hexadecimal strings *)

Lemma string_pair_ind (P : string -> Prop) :
  P EmptyString ->
  (forall c, P (String c EmptyString)) ->
  (forall c1 c2 s, P s -> P (String c1 (String c2 s))) ->
  forall s, P s.
Proof.
  intros H0 H1 H2 s.
  enough (P s /\ forall c, P (String c s)) by tauto.
  induction s as [|c s [IH1 IH2]]; split; auto.
Qed.

Lemma hex_value_digit (d : N) : d < 16 -> hex_value (hex_digit d) = Some d.
Proof.
  intros Hd.
  assert (Hall : forallb (fun d => if hex_value (hex_digit d) is Some d' then d' =? d else false)
                         (map N.of_nat (seq 0 16)) = true) by (vm_compute; reflexivity).
  rewrite forallb_forall in Hall.
  specialize (Hall d). cbv beta in Hall.
  destruct (hex_value (hex_digit d)) as [d'|].
  - f_equal. apply N.eqb_eq, Hall, in_map_iff. exists (N.to_nat d).
    split; [apply N2Nat.id | apply in_seq; lia].
  - discriminate Hall. apply in_map_iff. exists (N.to_nat d).
    split; [apply N2Nat.id | apply in_seq; lia].
Qed.

Lemma hex_length (bs : list N) : String.length (hex bs) = (2 * length bs)%nat.
Proof. induction bs as [|b bs IH]; [reflexivity|]. cbn [hex String.length length]. lia. Qed.

(** [unhexlify] undoes [hex]. *)
Lemma unhexlify_hex (bs : list N) : is_bytes bs -> unhexlify (hex bs) = Some bs.
Proof.
  induction 1 as [|b bs Hb Hbs IH]; [reflexivity|].
  cbn [hex unhexlify]. unfold is_byte in Hb.
  rewrite !hex_value_digit, IH.
  - do 2 f_equal. pose proof (N.div_mod b 16 ltac:(lia)). lia.
  - apply N.mod_upper_bound. lia.
  - apply N.Div0.div_lt_upper_bound. lia.
Qed.

Lemma unhexlify_cons2 (a b : ascii) (s : string) (l : list N) :
  unhexlify (String a (String b s)) = Some l ->
  exists x l', l = x :: l' /\ unhexlify (String a (String b EmptyString)) = Some [x] /\
               unhexlify s = Some l'.
Proof.
  cbn [unhexlify].
  destruct (hex_value a) as [x|]; [|discriminate].
  destruct (hex_value b) as [y|]; [|discriminate].
  destruct (unhexlify s) as [l'|]; [|discriminate].
  intros [= <-]. eauto.
Qed.

Lemma unhexlify_length (s : string) (l : list N) :
  unhexlify s = Some l -> String.length s = (2 * length l)%nat.
Proof.
  revert l. induction s as [| c | c1 c2 s IH] using string_pair_ind; intros l Hl.
  - injection Hl as <-. reflexivity.
  - discriminate.
  - apply unhexlify_cons2 in Hl as (x & l' & -> & _ & Hs).
    cbn [String.length length]. rewrite (IH l' Hs). lia.
Qed.

Lemma unhexlify_bytes (s : string) (l : list N) : unhexlify s = Some l -> is_bytes l.
Proof.
  revert l. induction s as [| c | c1 c2 s IH] using string_pair_ind; intros l Hl.
  - injection Hl as <-. constructor.
  - discriminate.
  - cbn [unhexlify] in Hl.
    destruct (hex_value c1) as [x|] eqn:E1; [|discriminate].
    destruct (hex_value c2) as [y|] eqn:E2; [|discriminate].
    destruct (unhexlify s) as [l'|]; [|discriminate].
    injection Hl as <-. constructor; [|by apply IH].
    assert (Hv : forall c v, hex_value c = Some v -> v < 16).
    { clear. intros c v. unfold hex_value. set (n := N_of_ascii c).
      destruct ((48 <=? n) && (n <=? 57)) eqn:D1.
      { intros [= <-]. apply andb_true_iff in D1 as [A B]. apply N.leb_le in A, B. lia. }
      destruct ((97 <=? n) && (n <=? 102)) eqn:D2.
      { intros [= <-]. apply andb_true_iff in D2 as [A B]. apply N.leb_le in A, B. lia. }
      destruct ((65 <=? n) && (n <=? 70)) eqn:D3; [|discriminate].
      intros [= <-]. apply andb_true_iff in D3 as [A B]. apply N.leb_le in A, B. lia. }
    apply Hv in E1, E2. unfold is_byte. lia.
Qed.

Lemma unhexlify_app (a b : string) (la : list N) :
  unhexlify a = Some la ->
  unhexlify (a ++ b) = (lb ← unhexlify b; Some (la ++ lb)).
Proof.
  revert la. induction a as [| c | c1 c2 a IH] using string_pair_ind; intros la Ha.
  - injection Ha as <-. change (append "" b) with b. by destruct (unhexlify b).
  - discriminate.
  - cbn [unhexlify] in Ha.
    change (append (String c1 (String c2 a)) b) with (String c1 (String c2 (append a b))).
    cbn [unhexlify].
    destruct (hex_value c1) as [x|]; [|discriminate].
    destruct (hex_value c2) as [y|]; [|discriminate].
    destruct (unhexlify a) as [l'|]; [|discriminate].
    injection Ha as <-. rewrite (IH l' eq_refl).
    by destruct (unhexlify b).
Qed.

Lemma unhexlify_app_Some (a b : string) (la lb : list N) :
  unhexlify a = Some la -> unhexlify b = Some lb -> unhexlify (a ++ b) = Some (la ++ lb).
Proof. intros Ha Hb. rewrite (unhexlify_app a b la Ha), Hb. reflexivity. Qed.

Lemma string_app_cons (x : ascii) (a b : string) :
  append (String x a) b = String x (append a b).
Proof. reflexivity. Qed.

Lemma string_length_app (a b : string) :
  String.length (a ++ b) = (String.length a + String.length b)%nat.
Proof.
  induction a as [|c a IH]; [reflexivity|].
  rewrite string_app_cons. cbn [String.length]. by rewrite IH.
Qed.

Lemma string_app_assoc (a b c : string) : ((a ++ b) ++ c = a ++ b ++ c)%string.
Proof.
  induction a as [|x a IH]; [reflexivity|]. rewrite !string_app_cons. by rewrite IH.
Qed.

Lemma string_app_nil_r (a : string) : (a ++ "" = a)%string.
Proof. induction a as [|x a IH]; [reflexivity|]. rewrite string_app_cons. by rewrite IH. Qed.

(** *** [reverse_bytes] and [swab32] on the bytes of a string *)

Lemma concat_nil_snoc (l : list string) (x : string) :
  String.concat "" (l ++ [x]) = (String.concat "" l ++ x)%string.
Proof.
  induction l as [|y l IH]; [reflexivity|].
  destruct l as [|z l].
  - cbn [app String.concat]. reflexivity.
  - change ((y :: z :: l) ++ [x]) with (y :: (z :: l) ++ [x]).
    change (String.concat "" (y :: (z :: l) ++ [x]))
      with (y ++ "" ++ String.concat "" ((z :: l) ++ [x]))%string.
    rewrite IH.
    change (String.concat "" (y :: z :: l)) with (y ++ "" ++ String.concat "" (z :: l))%string.
    change (append "" ?t) with t. rewrite string_app_assoc. reflexivity.
Qed.

Lemma py_range_down_2 (L : nat) :
  py_range (Z.of_nat L - 2) (-1) (-2) =
  map (fun k => Z.of_nat (L - 2 - 2 * k)) (seq 0 (L / 2)).
Proof.
  unfold py_range. cbn [Z.ltb Z.compare].
  replace (Z.to_nat ((Z.of_nat L - 2 - -1 - -2 - 1) / - -2)) with (L / 2)%nat.
  - apply map_ext_in. intros k Hk. apply in_seq in Hk.
    assert (2 * k + 2 <= L)%nat.
    { pose proof (Nat.div_mod_eq L 2). pose proof (Nat.mod_upper_bound L 2). lia. }
    lia.
  - replace (Z.of_nat L - 2 - -1 - -2 - 1)%Z with (Z.of_nat L) by lia.
    change (- -2)%Z with (Z.of_nat 2). rewrite <- Nat2Z.inj_div, Nat2Z.id. reflexivity.
Qed.

Lemma reverse_bytes_chunks (s : string) :
  reverse_bytes s =
  String.concat ""
    (map (fun k => substring (String.length s - 2 - 2 * k) 2 s) (seq 0 (String.length s / 2))).
Proof.
  unfold reverse_bytes. rewrite py_range_down_2, map_map. f_equal.
  apply map_ext. intros k. unfold str_slice. rewrite Nat2Z.id. f_equal. lia.
Qed.

Lemma reverse_bytes_cons2 (a b : ascii) (s : string) :
  Nat.Even (String.length s) ->
  reverse_bytes (String a (String b s)) = (reverse_bytes s ++ String a (String b ""))%string.
Proof.
  intros [h Hh]. rewrite !reverse_bytes_chunks.
  cbn [String.length]. rewrite Hh.
  replace (S (S (2 * h)) / 2)%nat with (S h).
  2:{ replace (S (S (2 * h))) with (1 * 2 + 2 * h)%nat by lia.
      rewrite Nat.div_add_l, Nat.mul_comm, Nat.div_mul by lia. lia. }
  replace (2 * h / 2)%nat with h by (rewrite Nat.mul_comm, Nat.div_mul; lia).
  rewrite seq_S, map_app. cbn [map Nat.add]. rewrite concat_nil_snoc. f_equal.
  - f_equal. apply map_ext_in. intros k Hk. apply in_seq in Hk.
    replace (S (S (2 * h)) - 2 - 2 * k)%nat with (S (S (2 * h - 2 - 2 * k))) by lia.
    reflexivity.
  - replace (S (S (2 * h)) - 2 - 2 * h)%nat with 0%nat by lia. cbn [substring]. by destruct s.
Qed.

Lemma unhexlify_cons_inv (s : string) (x : N) (l : list N) :
  unhexlify s = Some (x :: l) ->
  exists a b s0, s = String a (String b s0) /\
                 unhexlify (String a (String b EmptyString)) = Some [x] /\
                 unhexlify s0 = Some l.
Proof.
  destruct s as [|a [|b s0]]; try discriminate.
  intros Hs. apply unhexlify_cons2 in Hs as (x' & l' & [= -> ->] & Hab & Hs0).
  eauto 6.
Qed.

Lemma unhexlify_even (s : string) (l : list N) :
  unhexlify s = Some l -> Nat.Even (String.length s).
Proof. intros Hs. exists (length l). by apply unhexlify_length. Qed.

(** [reverse_bytes] reverses the bytes the string stands for. *)
Lemma unhexlify_reverse_bytes (s : string) (bs : list N) :
  unhexlify s = Some bs -> unhexlify (reverse_bytes s) = Some (rev bs).
Proof.
  revert bs. induction s as [| c | a b s IH] using string_pair_ind; intros bs Hs.
  - injection Hs as <-. reflexivity.
  - discriminate.
  - apply unhexlify_cons2 in Hs as (x & l & -> & Hab & Hs0).
    rewrite reverse_bytes_cons2 by (by eapply unhexlify_even).
    cbn [rev]. apply unhexlify_app_Some; [by apply IH | exact Hab].
Qed.

Lemma swab32_loop_res (s : string) (starts : list Z) (res : string) :
  swab32_loop s starts res = (res ++ swab32_loop s starts "")%string.
Proof.
  revert res. induction starts as [|i starts IH]; intros res; cbn [swab32_loop].
  - by rewrite string_app_nil_r.
  - destruct (_ <? _)%nat; [by rewrite string_app_nil_r|].
    rewrite IH, (IH (append "" _)). change (append "" ?t) with t.
    by rewrite string_app_assoc.
Qed.

Lemma swab32_loop_shift (c0 c1 c2 c3 c4 c5 c6 c7 : ascii) (rest : string)
    (ks : list nat) (res : string) :
  swab32_loop (String c0 (String c1 (String c2 (String c3
                (String c4 (String c5 (String c6 (String c7 rest))))))))
              (map (fun k => Z.of_nat (8 * S k)) ks) res =
  swab32_loop rest (map (fun k => Z.of_nat (8 * k)) ks) res.
Proof.
  revert res. induction ks as [|k ks IH]; intros res; [reflexivity|].
  cbn [map swab32_loop]. rewrite !Nat2Z.id.
  assert (E : str_slice (String c0 (String c1 (String c2 (String c3
                (String c4 (String c5 (String c6 (String c7 rest))))))))
                (8 * S k) (8 * S k + 8) = str_slice rest (8 * k) (8 * k + 8)).
  { unfold str_slice.
    replace (8 * S k + 8 - 8 * S k)%nat with 8%nat by lia.
    replace (8 * k + 8 - 8 * k)%nat with 8%nat by lia.
    replace (8 * S k)%nat with (S (S (S (S (S (S (S (S (8 * k))))))))) by lia.
    reflexivity. }
  rewrite !E. destruct (_ <? _)%nat; [reflexivity | apply IH].
Qed.

Lemma substring_0_0 (s : string) : substring 0 0 s = EmptyString.
Proof. by destruct s. Qed.

Lemma swab32_cons8 (c0 c1 c2 c3 c4 c5 c6 c7 : ascii) (rest : string) :
  swab32 (String c0 (String c1 (String c2 (String c3
            (String c4 (String c5 (String c6 (String c7 rest)))))))) =
  String c6 (String c7 (String c4 (String c5 (String c2 (String c3
    (String c0 (String c1 (swab32 rest)))))))).
Proof.
  unfold swab32. cbn [String.length]. set (L := String.length rest).
  replace (S (S (S (S (S (S (S (S L)))))))) with (8 + L)%nat by reflexivity.
  rewrite !py_range_0_8.
  replace ((8 + L + 7) / 8)%nat with (S ((L + 7) / 8)).
  2:{ replace (8 + L + 7)%nat with (1 * 8 + (L + 7))%nat by lia.
      rewrite Nat.div_add_l by lia. reflexivity. }
  cbn [seq map]. rewrite <- seq_shift, map_map.
  set (ks := seq 0 ((L + 7) / 8)).
  transitivity
    (swab32_loop (String c0 (String c1 (String c2 (String c3
                    (String c4 (String c5 (String c6 (String c7 rest))))))))
                 (map (fun k => Z.of_nat (8 * S k)) ks)
                 (String c6 (String c7 (String c4 (String c5 (String c2 (String c3
                    (String c0 (String c1 EmptyString))))))))).
  - cbn [swab32_loop]. change (Z.to_nat (Z.of_nat (8 * 0))) with 0%nat.
    unfold str_slice.
    repeat (cbn [substring Nat.add Nat.sub String.length]; rewrite ?substring_0_0).
    reflexivity.
  - rewrite swab32_loop_shift, swab32_loop_res. reflexivity.
Qed.

Lemma swab32_short (s : string) : (String.length s < 8)%nat -> swab32 s = EmptyString.
Proof.
  intros Hlen.
  do 8 (destruct s as [|? s]; [vm_compute; reflexivity|]).
  cbn [String.length] in Hlen. lia.
Qed.

(** [swab32] reverses the bytes of every group of four. *)
Lemma unhexlify_swab32 (s : string) (bs : list N) :
  unhexlify s = Some bs -> unhexlify (swab32 s) = Some (swab_bytes bs).
Proof.
  remember (length bs) as n eqn:Hn. revert s bs Hn.
  induction (lt_wf n) as [n _ IH]. intros s bs Hn Hs.
  destruct bs as [|b0 [|b1 [|b2 [|b3 bs']]]].
  1-4: rewrite swab32_short; [reflexivity|];
       apply unhexlify_length in Hs; rewrite Hs; cbn [length]; lia.
  apply unhexlify_cons_inv in Hs as (c0 & c1 & s1 & -> & H0 & Hs).
  apply unhexlify_cons_inv in Hs as (c2 & c3 & s2 & -> & H1 & Hs).
  apply unhexlify_cons_inv in Hs as (c4 & c5 & s3 & -> & H2 & Hs).
  apply unhexlify_cons_inv in Hs as (c6 & c7 & s4 & -> & H3 & Hs).
  rewrite swab32_cons8. cbn [swab_bytes].
  specialize (IH (length bs') ltac:(subst n; cbn [length]; lia) s4 bs' eq_refl Hs).
  cbn [unhexlify] in *.
  destruct (hex_value c0), (hex_value c1), (hex_value c2), (hex_value c3),
           (hex_value c4), (hex_value c5), (hex_value c6), (hex_value c7);
    try discriminate.
  rewrite IH. congruence.
Qed.
(** ** The verifier *)

Lemma foldl_inv {A B} (P : A -> Prop) (f : A -> B -> A) (l : list B) (a : A) :
  P a -> (forall a b, P a -> P (f a b)) -> P (foldl f a l).
Proof. intros Ha Hf. revert a Ha. induction l as [|b l IH]; intros a Ha; cbn; auto. Qed.

Lemma sha256_round_length (st : list N) (kw : N * N) :
  length st = 8%nat -> length (Sha256.round st kw) = 8%nat.
Proof.
  intros Hst. do 8 (destruct st as [|? st]; [discriminate|]).
  destruct st; [reflexivity | discriminate].
Qed.

Lemma sha256_compress_length (hash blk : list N) :
  length hash = 8%nat -> length (Sha256.compress hash blk) = 8%nat.
Proof.
  intros Hh. unfold Sha256.compress. rewrite length_zip_with.
  rewrite (foldl_inv (fun st => length st = 8%nat)); auto using sha256_round_length. lia.
Qed.

Lemma sha256_words_length (ws : list N) :
  length (flat_map Sha256.bytes_of_word ws) = (4 * length ws)%nat.
Proof. induction ws as [|w ws IH]; [reflexivity|]. cbn [flat_map]. rewrite length_app, IH. cbn. lia. Qed.

(** A digest has 32 bytes. *)
Lemma sha256_length (data : list N) : length (sha256 data) = 32%nat.
Proof.
  unfold sha256, Sha256.digest. rewrite sha256_words_length.
  rewrite (foldl_inv (fun st => length st = 8%nat)); auto using sha256_compress_length.
Qed.

Lemma sha256_bytes (data : list N) : is_bytes (sha256 data).
Proof.
  unfold sha256, Sha256.digest. apply Forall_forall. intros b Hb.
  apply list_elem_of_In, in_flat_map in Hb as (w & _ & Hb).
  assert (Hm : forall m, m mod 256 < 256) by (intros; apply N.mod_upper_bound; lia).
  cbn in Hb. unfold is_byte. destruct Hb as [<- | [<- | [<- | [<- | []]]]]; apply Hm.
Qed.




(** *** The search *)



















Lemma extract_components_inv (meta : gmap string string) (comp : components) :
  extract_components meta = Some comp ->
  meta !! "Silicon-Auth-Version"%string = Some (comp_v comp) /\
  meta !! "Silicon-Auth-Hash"%string = Some (comp_p comp) /\
  meta !! "Silicon-Auth-Extranonce2"%string = Some (comp_en2 comp) /\
  meta !! "Silicon-Auth-Ntime"%string = Some (comp_nt comp) /\
  meta !! "Silicon-Auth-Nonce"%string = Some (comp_no comp) /\
  comp_nb comp = "1d00ffff"%string.
Proof.
  unfold extract_components.
  destruct (meta !! "Silicon-Auth-Version"%string) as [v|]; [|discriminate].
  destruct (meta !! "Silicon-Auth-Hash"%string) as [p|]; [|discriminate].
  destruct (meta !! "Silicon-Auth-Extranonce2"%string) as [en2|]; [|discriminate].
  destruct (meta !! "Silicon-Auth-Ntime"%string) as [nt|]; [|discriminate].
  destruct (meta !! "Silicon-Auth-Nonce"%string) as [no|]; [|discriminate].
  cbn. intros [= <-]. done.
Qed.




(** C4: when the digest of the pixel bytes differs from the hash of the
    record, [verify_art] returns [False] and the only hash computed is
    that of the pixels: no coinbase, no header. *)
Theorem verify_art_integrity (fs : gmap string PngImage) (image_path : string)
    (img : PngImage) (auth_hash : string) :
  fs !! image_path = Some img ->
  info img !! "Silicon-Auth-Hash"%string = Some auth_hash ->
  hex (sha256 (tobytes img)) <> auth_hash ->
  verify_art fs image_path = (Return false, [HashPixels (tobytes img)]).
Proof.
  intros Himg Hhash Hneq. unfold verify_art. rewrite Himg, Hhash.
  apply String.eqb_neq in Hneq. rewrite Hneq. reflexivity.
Qed.

(** C10: [verify_art] reads the pixel bytes and five metadata entries;
    two images that agree on them get the same result, whatever else the
    records hold, and the nbits field of the search is always the
    difficulty-1 constant. *)
Theorem verify_art_ignores_nbits (fs1 fs2 : gmap string PngImage) (image_path : string)
    (img1 img2 : PngImage) :
  fs1 !! image_path = Some img1 ->
  fs2 !! image_path = Some img2 ->
  tobytes img1 = tobytes img2 ->
  (forall key, key ∈ read_keys -> info img1 !! key = info img2 !! key) ->
  verify_art fs1 image_path = verify_art fs2 image_path /\
  (forall comp, extract_components (info img1) = Some comp ->
                comp_nb comp = "1d00ffff"%string).
Proof.
  intros H1 H2 Hpx Hkeys. split.
  - assert (Hin : forall key, In key read_keys -> info img1 !! key = info img2 !! key)
      by (intros key Hkey; apply Hkeys, list_elem_of_In, Hkey).
    unfold verify_art, extract_components. rewrite H1, H2, Hpx.
    rewrite (Hin "Silicon-Auth-Hash"%string), (Hin "Silicon-Auth-Version"%string),
      (Hin "Silicon-Auth-Extranonce2"%string), (Hin "Silicon-Auth-Ntime"%string),
      (Hin "Silicon-Auth-Nonce"%string) by (cbn; tauto).
    reflexivity.
  - intros comp Hcomp. apply extract_components_inv in Hcomp. tauto.
Qed.



(** *** The claims on concrete images *)

Section VerifierExamples.
Import VerifierExamples.



Lemma verify_art_integrity_witness :
  verify_art {[ "a.png"%string := img_altered ]} "a.png" =
  (Return false, [HashPixels [1; 2; 4]]).
Proof.
  apply (verify_art_integrity _ "a.png" img_altered (hex (sha256 px))).
  - reflexivity.
  - reflexivity.
  - vm_compute. discriminate.
Defined.

Lemma verify_art_ignores_nbits_witness :
  verify_art {[ "a.png"%string := img_ok ]} "a.png" =
  verify_art {[ "a.png"%string := img_nbits ]} "a.png".
Proof.
  apply (verify_art_ignores_nbits _ _ "a.png" img_ok img_nbits).
  - reflexivity.
  - reflexivity.
  - reflexivity.
  - intros key Hkey. unfold read_keys in Hkey.
    repeat (apply elem_of_cons in Hkey as [-> | Hkey]; [vm_compute; reflexivity|]).
    by apply elem_of_nil in Hkey.
Defined.


End VerifierExamples.
(** ** The bridge *)

Section BridgeClaims.
Import Bridge.

(** C8: on a [mining.submit] with its five parameters and a string job
    id, with sends that succeed, the bridge first acknowledges the device,
    then pops the job under the lock; a registered requester is sent the
    job id, the nonce, the parameters and the status, and is closed;
    without one nothing more happens; the other pending jobs stay. *)
Theorem submit_completes_job (broken : gset sock) (self : DualBridge) (conn : sock)
    (msg : list (string * jval)) (params nonce : jval) (jid : string) :
  dict_get msg "method" JNull = JStr "mining.submit" ->
  dict_get msg "params" (JList []) = params ->
  getitem params 1 = Some (JStr jid) ->
  getitem params 4 = Some nonce ->
  conn ∉ broken ->
  (forall client, pending_jobs self !! jid = Some client -> client ∉ broken) ->
  exists self',
    handle_stratum_message broken self conn (Some (JDict msg)) =
    (Return tt, self',
     [Send conn (submit_ack (dict_get msg "id" JNull));
      LockAcquire; PopJob (JStr jid); LockRelease] ++
     match pending_jobs self !! jid with
     | Some client => [Send client (submit_result (JStr jid) nonce params); Close client]
     | None => []
     end) /\
    pending_jobs self' = delete jid (pending_jobs self) /\
    pending_jobs self' !! jid = None /\
    (forall other, other <> jid -> pending_jobs self' !! other = pending_jobs self !! other) /\
    (running self', s9_conn self', job_counter self') =
    (running self, s9_conn self, job_counter self).
Proof.
  intros Hmethod Hparams Hjob Hnonce Hconn Hclient.
  unfold handle_stratum_message. rewrite Hmethod. cbv iota beta.
  rewrite Hparams, Hjob, Hnonce.
  assert (Hok : forall c, c ∉ broken -> send_ok broken c = true)
    by (intros c Hc; unfold send_ok; by apply bool_decide_eq_true_2).
  rewrite (Hok conn Hconn). unfold complete_job. cbn [pending_pop].
  destruct (pending_jobs self !! jid) as [client|] eqn:Eclient.
  - rewrite (Hok client (Hclient client eq_refl)).
    eexists. split; [reflexivity|]. cbn [pending_jobs running s9_conn job_counter].
    split; [reflexivity|]. split; [apply lookup_delete_eq|].
    split; [intros other Hother; by apply lookup_delete_ne | reflexivity].
  - eexists. split; [reflexivity|]. cbn [pending_jobs running s9_conn job_counter].
    split; [reflexivity|]. split; [apply lookup_delete_eq|].
    split; [intros other Hother; by apply lookup_delete_ne | reflexivity].
Qed.

Lemma submit_completes_job_witness :
  exists self',
    handle_stratum_message ∅ BridgeExamples.bridge0 3%nat
      (Some (JDict BridgeExamples.submit_msg)) =
    (Return tt, self',
     [Send 3%nat (submit_ack (JNum 4)); LockAcquire; PopJob (JStr "1"); LockRelease;
      Send 7%nat (submit_result (JStr "1") (JStr "deadbeef") BridgeExamples.submit_params);
      Close 7%nat]) /\
    pending_jobs self' !! "1"%string = None /\
    pending_jobs self' !! "2"%string = Some 8%nat.
Proof.
  assert (Hconn : 3%nat ∉ (∅ : gset sock)) by apply not_elem_of_empty.
  assert (Hclient : forall client : sock,
            pending_jobs BridgeExamples.bridge0 !! "1"%string = Some client ->
            client ∉ (∅ : gset sock))
    by (intros client _; apply not_elem_of_empty).
  destruct (submit_completes_job ∅ BridgeExamples.bridge0 3%nat BridgeExamples.submit_msg
              BridgeExamples.submit_params (JStr "deadbeef") "1"
              eq_refl eq_refl eq_refl eq_refl Hconn Hclient)
    as (self' & Hrun & _ & Hgone & Hothers & _).
  exists self'. split; [exact Hrun|]. split; [exact Hgone|].
  etransitivity; [apply (Hothers "2"%string); discriminate | reflexivity].
Defined.

End BridgeClaims.
(** * Further properties of the code *)

(** ** GF(2^8) *)

Lemma gf_mul_assoc (x y z : N) :
  x < 256 -> y < 256 -> z < 256 -> gf_mul (gf_mul x y) z = gf_mul x (gf_mul y z).
Proof.
  intros Hx Hy Hz.
  rewrite (gf_mul_comm x (gf_mul y z)), (gf_mul_swap_r y z x), (gf_mul_comm y x) by done.
  reflexivity.
Qed.

Lemma gf_mul_lxor_r (x a b : N) : a < 256 -> b < 256 -> x < 256 ->
  gf_mul x (N.lxor a b) = N.lxor (gf_mul x a) (gf_mul x b).
Proof.
  intros Ha Hb Hx. rewrite !(gf_mul_comm x). by apply gf_mul_lxor_l.
Qed.

(** On bytes, [gf_mul] is a commutative and associative product with
    unit 1 that distributes over XOR, and its result is a byte. *)
Theorem gf_mul_ring_laws (x y z : N) :
  x < 256 -> y < 256 -> z < 256 ->
  gf_mul x y < 256 /\
  gf_mul x y = gf_mul y x /\
  gf_mul (gf_mul x y) z = gf_mul x (gf_mul y z) /\
  gf_mul 1 x = x /\
  gf_mul x (N.lxor y z) = N.lxor (gf_mul x y) (gf_mul x z).
Proof.
  intros Hx Hy Hz.
  split; [apply gf_mul_byte|]. split; [apply gf_mul_comm|].
  split; [by apply gf_mul_assoc|]. split; [by apply gf_mul_1_l | by apply gf_mul_lxor_r].
Qed.

Lemma gf_mul_ring_laws_witness :
  gf_mul 87 131 < 256 /\
  gf_mul 87 131 = gf_mul 131 87 /\
  gf_mul (gf_mul 87 131) 29 = gf_mul 87 (gf_mul 131 29) /\
  gf_mul 1 87 = 87 /\
  gf_mul 87 (N.lxor 131 29) = N.lxor (gf_mul 87 131) (gf_mul 87 29).
Proof. apply gf_mul_ring_laws; reflexivity. Defined.

(** [gf_div] raises on a zero divisor and otherwise undoes [gf_mul]; a
    product is zero only when a factor is. *)
Theorem gf_div_inverse (x y : N) :
  x < 256 -> y < 256 ->
  gf_div x 0 = None /\
  (y <> 0 -> gf_div (gf_mul x y) y = Some x /\
             exists q, gf_div x y = Some q /\ q < 256 /\ gf_mul q y = x) /\
  (gf_mul x y = 0 <-> x = 0 \/ y = 0).
Proof.
  intros Hx Hy.
  pose proof (byte_cases2
    (fun x y => (y =? 0) ||
       (match gf_div (gf_mul x y) y with Some x' => x' =? x | None => false end &&
        match gf_div x y with Some q => (q <? 256) && (gf_mul q y =? x) | None => false end)))
    as Hdiv.
  specialize (Hdiv ltac:(vm_compute; reflexivity) x y Hx Hy). cbv beta in Hdiv.
  pose proof (byte_cases2
    (fun x y => Bool.eqb (gf_mul x y =? 0) ((x =? 0) || (y =? 0)))) as Hzero.
  specialize (Hzero ltac:(vm_compute; reflexivity) x y Hx Hy). cbv beta in Hzero.
  split; [reflexivity|]. split.
  - intros Hy0. apply orb_true_iff in Hdiv as [Hdiv | Hdiv].
    { apply N.eqb_eq in Hdiv. contradiction. }
    apply andb_true_iff in Hdiv as [H1 H2].
    destruct (gf_div (gf_mul x y) y) as [x'|]; [|discriminate].
    apply N.eqb_eq in H1 as ->. split; [reflexivity|].
    destruct (gf_div x y) as [q|]; [|discriminate].
    apply andb_true_iff in H2 as [H2 H3]. apply N.ltb_lt in H2. apply N.eqb_eq in H3.
    exists q. done.
  - apply Bool.eqb_prop in Hzero.
    rewrite <- N.eqb_eq, Hzero, orb_true_iff, !N.eqb_eq. reflexivity.
Qed.

Lemma gf_div_inverse_witness :
  gf_div 87 0 = None /\
  (131 <> 0 -> gf_div (gf_mul 87 131) 131 = Some 87 /\
               exists q, gf_div 87 131 = Some q /\ q < 256 /\ gf_mul q 131 = 87) /\
  (gf_mul 87 131 = 0 <-> 87 = 0 \/ 131 = 0).
Proof. apply gf_div_inverse; reflexivity. Defined.

(** The tables built by [init_gf_tables] are the ones the codec uses;
    they are inverse to each other on the non-zero bytes, and the second
    half of [GF_EXP] repeats the first. *)
Theorem gf_tables_inverse :
  init_gf_tables = (GF_EXP, GF_LOG) /\
  length GF_EXP = 512%nat /\ length GF_LOG = 256%nat /\
  (forall x, 0 < x < 256 ->
     idx GF_LOG (N.to_nat x) < 255 /\ idx GF_EXP (N.to_nat (idx GF_LOG (N.to_nat x))) = x) /\
  (forall k, k < 255 ->
     idx GF_EXP (N.to_nat k) <> 0 /\ idx GF_LOG (N.to_nat (idx GF_EXP (N.to_nat k))) = k) /\
  (forall i, (i < 257)%nat -> idx GF_EXP (255 + i) = idx GF_EXP i).
Proof.
  split; [vm_compute; reflexivity|]. split; [reflexivity|]. split; [reflexivity|].
  split; [intros x [Hx0 Hx]; apply exp_log; lia|]. split; [apply log_exp|].
  intros i Hi. apply N.eqb_eq.
  apply (proj1 (forallb_forall (fun i => idx GF_EXP (255 + i) =? idx GF_EXP i) (seq 0 257)));
    [vm_compute; reflexivity | apply in_seq; lia].
Qed.

Lemma gf_tables_inverse_witness :
  (idx GF_LOG (N.to_nat 87) < 255 /\ idx GF_EXP (N.to_nat (idx GF_LOG (N.to_nat 87))) = 87) /\
  (idx GF_EXP (N.to_nat 200) <> 0 /\ idx GF_LOG (N.to_nat (idx GF_EXP (N.to_nat 200))) = 200) /\
  idx GF_EXP (255 + 100) = idx GF_EXP 100.
Proof.
  destruct gf_tables_inverse as (_ & _ & _ & Hlog & Hexp & Hper).
  split; [apply Hlog; split; reflexivity|].
  split; [apply Hexp; reflexivity | apply Hper; lia].
Defined.

(** ** The generator polynomial and the code, for any number of parity symbols *)

Lemma foldl_xor_at_comm (f : nat -> N) (off : nat) (l : list N) (js : list nat) :
  foldl (fun r i => xor_at r (i + off) (f i)) l js =
  foldl (fun r i => xor_at r (off + i) (f i)) l js.
Proof. apply foldl_ext_in. intros acc i _. by rewrite Nat.add_comm. Qed.

Lemma xor_prefix_zeros (p : list N) (n : nat) :
  xor_prefix (replicate (length p + n) 0) p = p ++ replicate n 0.
Proof.
  induction p as [|c p IH]; [by destruct n|].
  cbn [length Nat.add replicate xor_prefix app]. rewrite N.lxor_0_l, IH. reflexivity.
Qed.

Lemma map_gf_mul_1 (p : list N) : is_bytes p -> map (fun c => gf_mul c 1) p = p.
Proof.
  induction 1 as [|c p Hc Hp IH]; [reflexivity|].
  cbn [map]. rewrite IH, gf_mul_comm, gf_mul_1_l by done. reflexivity.
Qed.

(** The product by a factor [x + a], as the loops compute it. *)
Lemma gf_poly_mul_linear (p : list N) (a : N) :
  is_bytes p ->
  gf_poly_mul p [1; a] = xor_from (p ++ [0]) 1 (map (fun c => gf_mul c a) p).
Proof.
  intros Hp. unfold gf_poly_mul. cbn [length seq foldl].
  replace (length p + 2 - 1)%nat with (length p + 1)%nat by lia.
  change (idx [1; a] 0) with 1. change (idx [1; a] 1) with a.
  rewrite !foldl_xor_at_comm.
  rewrite (fold_xor_at_from (length p) (fun i => gf_mul (idx p i) 1) 0)
    by (rewrite length_replicate; lia).
  rewrite (map_idx_seq (fun c => gf_mul c 1)), map_gf_mul_1 by done.
  cbn [xor_from]. rewrite xor_prefix_zeros.
  rewrite (fold_xor_at_from (length p) (fun i => gf_mul (idx p i) a) 1)
    by (rewrite length_app; cbn; lia).
  rewrite (map_idx_seq (fun c => gf_mul c a)). reflexivity.
Qed.

Lemma horner_snoc_0 (x y : N) (p : list N) :
  horner x y (p ++ [0]) = gf_mul (horner x y p) x.
Proof. rewrite horner_app. cbn. apply N.lxor_0_r. Qed.

(** The value of the product is the product of the values. *)
Lemma horner_poly_mul_linear (p : list N) (a x : N) :
  is_bytes p -> a < 256 -> x < 256 ->
  horner x 0 (gf_poly_mul p [1; a]) = gf_mul (horner x 0 p) (N.lxor x a).
Proof.
  intros Hp Ha Hx. rewrite gf_poly_mul_linear by done.
  assert (Hh : horner x 0 p < 256) by (apply horner_byte; [lia | done]).
  destruct p as [|c p].
  { cbn. reflexivity. }
  apply Forall_cons in Hp as [Hc Hp].
  change ((c :: p) ++ [0]) with (c :: (p ++ [0])). cbn [xor_from map].
  set (vs := gf_mul c a :: map (fun c0 => gf_mul c0 a) p).
  assert (Hvs : is_bytes vs) by (apply (is_bytes_map_gf_mul a (c :: p))).
  assert (Hvl : length vs = S (length p)) by (unfold vs; cbn; by rewrite length_map).
  change (horner x 0 (c :: xor_prefix (p ++ [0]) vs))
    with (horner x (N.lxor (gf_mul 0 x) c) (xor_prefix (p ++ [0]) vs)).
  rewrite gf_mul_0_l, N.lxor_0_l.
  pose proof (horner_xor_prefix x vs (p ++ [0]) c 0 Hx Hc ltac:(lia) Hvs) as E.
  rewrite N.lxor_0_r in E. rewrite E.
  - rewrite Hvl. replace (S (length p)) with (length (p ++ [0])) by (rewrite length_app; cbn; lia).
    rewrite firstn_all, drop_all. cbn [horner foldl].
    fold (horner x c (p ++ [0])). fold (horner x 0 vs).
    rewrite horner_snoc_0.
    change (horner x 0 vs) with (horner x (gf_mul 0 a) (map (fun c0 => gf_mul c0 a) (c :: p))).
    rewrite horner_scale by (done || lia || by constructor).
    change (horner x c p) with (horner x (N.lxor (gf_mul 0 x) c) p) in *.
    change (horner x (N.lxor (gf_mul 0 x) c) p) with (horner x 0 (c :: p)).
    symmetry. apply gf_mul_lxor_r; done.
  - apply Forall_app. split; [done | by repeat constructor].
  - rewrite length_app, Hvl. cbn. lia.
Qed.

Lemma gf_poly_mul_linear_shape (p : list N) (a : N) (c : N) (p' : list N) :
  is_bytes p -> a < 256 -> p = c :: p' ->
  exists q, gf_poly_mul p [1; a] = c :: q /\ length q = length p /\
            is_bytes (gf_poly_mul p [1; a]).
Proof.
  intros Hp Ha ->. rewrite gf_poly_mul_linear by done.
  change ((c :: p') ++ [0]) with (c :: (p' ++ [0])). cbn [xor_from].
  eexists. split; [reflexivity|]. split.
  - rewrite xor_prefix_length, length_app. cbn. lia.
  - apply Forall_cons in Hp as [Hc Hp]. constructor; [done|].
    apply xor_prefix_bytes; [|apply (is_bytes_map_gf_mul a (c :: p'))].
    apply Forall_app. split; [done | by repeat constructor].
Qed.

(** [rs_generator_poly nsym] is monic of degree [nsym], has byte
    coefficients, and vanishes at [GF_EXP[i]] for every [i < nsym]. *)
Theorem rs_generator_poly_roots (nsym : nat) :
  (nsym <= 512)%nat ->
  exists g, rs_generator_poly nsym = 1 :: g /\
            length g = nsym /\
            is_bytes (rs_generator_poly nsym) /\
            forall i, (i < nsym)%nat -> gf_poly_eval (rs_generator_poly nsym) (idx GF_EXP i) = Some 0.
Proof.
  intros _. unfold rs_generator_poly.
  induction nsym as [|n IH].
  - exists []. cbn. repeat split; [by repeat constructor | intros; lia].
  - rewrite seq_S, foldl_snoc. cbn [Nat.add].
    destruct IH as (g & Hg & Hgl & Hgb & Hroots).
    set (gn := foldl (fun g0 i => gf_poly_mul g0 [1; idx GF_EXP i]) [1] (seq 0 n)) in *.
    destruct (gf_poly_mul_linear_shape gn (idx GF_EXP n) 1 g Hgb (idx_GF_EXP_byte n) Hg)
      as (q & Hq & Hql & Hqb).
    exists q. split; [exact Hq|]. split; [rewrite Hql, Hg; cbn; lia|]. split; [exact Hqb|].
    intros i Hi. rewrite gf_poly_eval_horner by (rewrite Hq; discriminate).
    f_equal. rewrite horner_poly_mul_linear by auto using idx_GF_EXP_byte.
    destruct (decide (i = n)) as [-> | Hne].
    + rewrite N.lxor_nilpotent. apply gf_mul_0_r.
    + specialize (Hroots i ltac:(lia)).
      rewrite gf_poly_eval_horner in Hroots by (rewrite Hg; discriminate).
      injection Hroots as ->. reflexivity.
Qed.

Lemma rs_generator_poly_roots_witness :
  exists g, rs_generator_poly 4 = 1 :: g /\
            length g = 4%nat /\
            is_bytes (rs_generator_poly 4) /\
            forall i, (i < 4)%nat -> gf_poly_eval (rs_generator_poly 4) (idx GF_EXP i) = Some 0.
Proof. apply rs_generator_poly_roots. lia. Defined.

(** For any number [nsym >= 1] of parity symbols, the codeword is the
    data followed by [nsym] bytes and [rs_decode_simple] returns the data. *)
Theorem rs_encode_decode_any (data : list N) (nsym : nat) :
  (1 <= nsym <= 512)%nat -> is_bytes data ->
  length (rs_encode data nsym) = (length data + nsym)%nat /\
  take (length data) (rs_encode data nsym) = data /\
  is_bytes (rs_encode data nsym) /\
  rs_decode_simple (rs_encode data nsym) nsym = Some data.
Proof.
  intros Hn Hdata.
  destruct (rs_generator_poly_roots nsym ltac:(lia)) as (g & Hg & Hgl & Hgb & Hroots).
  unfold rs_encode. rewrite Hg in *.
  set (parity := drop (length data) _).
  assert (Hp : length parity = nsym /\ is_bytes parity /\
               forall i, (i < nsym)%nat -> horner (idx GF_EXP i) 0 (data ++ parity) = 0).
  { assert (Hgl' : length (1 :: g) = S nsym) by (cbn; lia).
    assert (H0 : horner (idx GF_EXP 0) 0 (1 :: g) = 0).
    { specialize (Hroots 0%nat ltac:(lia)).
      rewrite gf_poly_eval_horner in Hroots by discriminate. by injection Hroots. }
    split; [|split].
    - eapply (rs_encode_root nsym g Hgb Hgl' data (idx GF_EXP 0) Hdata);
        [apply idx_GF_EXP_byte | exact H0].
    - eapply (rs_encode_root nsym g Hgb Hgl' data (idx GF_EXP 0) Hdata);
        [apply idx_GF_EXP_byte | exact H0].
    - intros i Hi. specialize (Hroots i Hi).
      rewrite gf_poly_eval_horner in Hroots by discriminate. injection Hroots as Hroot.
      eapply (rs_encode_root nsym g Hgb Hgl' data (idx GF_EXP i) Hdata);
        [apply idx_GF_EXP_byte | exact Hroot]. }
  destruct Hp as (Hpl & Hpb & Hpr).
  split; [rewrite length_app; lia|]. split; [apply take_app_length|].
  split; [by apply Forall_app|].
  unfold rs_decode_simple, rs_syndromes.
  rewrite (mapM_const _ 0).
  - cbn [mbind option_bind]. rewrite length_seq.
    change (0 :: replicate nsym 0) with (replicate (S nsym) 0).
    rewrite max_is_zero_replicate. unfold drop_last. rewrite length_app, Hpl.
    replace (length data + nsym - nsym)%nat with (length data) by lia.
    rewrite take_app_length. reflexivity.
  - intros i Hi. apply in_seq in Hi. rewrite gf_poly_eval_horner.
    + f_equal. apply Hpr. lia.
    + intros E. apply (f_equal length) in E. rewrite length_app, Hpl in E. cbn in E. lia.
Qed.

Lemma rs_encode_decode_any_witness :
  let data := [1; 2; 3; 4; 5] in
  length (rs_encode data 4) = (length data + 4)%nat /\
  take (length data) (rs_encode data 4) = data /\
  is_bytes (rs_encode data 4) /\
  rs_decode_simple (rs_encode data 4) 4 = Some data.
Proof. apply rs_encode_decode_any; [lia | by repeat constructor]. Defined.

(** ** Detection of a corrupted byte *)

Lemma xor_sum_acc (y : N) (l : list N) : foldl N.lxor y l = N.lxor y (xor_sum l).
Proof.
  unfold xor_sum. revert y. induction l as [|c l IH]; intros y; cbn [foldl].
  - by rewrite N.lxor_0_r.
  - rewrite IH, (IH (N.lxor 0 c)), N.lxor_0_l, N.lxor_assoc. reflexivity.
Qed.

Lemma xor_sum_app (l1 l2 : list N) : xor_sum (l1 ++ l2) = N.lxor (xor_sum l1) (xor_sum l2).
Proof. unfold xor_sum at 1. rewrite foldl_app. apply xor_sum_acc. Qed.

Lemma xor_sum_cons (c : N) (l : list N) : xor_sum (c :: l) = N.lxor c (xor_sum l).
Proof. apply (xor_sum_app [c] l). Qed.

(** At [GF_EXP[0] = 1] the value of a message is the XOR of its bytes. *)
Lemma horner_1 (y : N) (l : list N) :
  y < 256 -> is_bytes l -> horner 1 y l = N.lxor y (xor_sum l).
Proof.
  intros Hy Hl. revert y Hy. induction Hl as [|c l Hc Hl IH]; intros y Hy.
  - cbn. by rewrite N.lxor_0_r.
  - cbn [horner foldl]. fold (horner 1 (N.lxor (gf_mul y 1) c) l).
    rewrite IH by (apply lxor_byte; [apply gf_mul_byte | done]).
    rewrite gf_mul_comm, gf_mul_1_l, xor_sum_cons, N.lxor_assoc by done. reflexivity.
Qed.

Lemma mapM_total {A B} (f : A -> option B) (g : A -> B) (l : list A) :
  (forall a, In a l -> f a = Some (g a)) -> mapM f l = Some (map g l).
Proof.
  induction l as [|a l IH]; intros Hf; [reflexivity|].
  cbn. rewrite (Hf a) by (by left). cbn. rewrite IH by (intros; apply Hf; by right).
  reflexivity.
Qed.

(** A message whose bytes do not XOR to zero is refused. *)
Lemma rs_decode_xor_sum (msg : list N) (nsym : nat) :
  is_bytes msg -> (0 < nsym)%nat -> xor_sum msg <> 0 -> rs_decode_simple msg nsym = None.
Proof.
  intros Hmsg Hn Hsum.
  destruct msg as [|m0 msg']; [by cbn in Hsum|].
  unfold rs_decode_simple, rs_syndromes.
  rewrite (mapM_total _ (fun i => horner (idx GF_EXP i) 0 (m0 :: msg')))
    by (intros; by apply gf_poly_eval_horner).
  cbn [mbind option_bind]. destruct nsym as [|n]; [lia|].
  cbn [seq map max_is_zero forallb]. change (idx GF_EXP 0) with 1.
  rewrite horner_1 by (done || lia). rewrite N.lxor_0_l.
  destruct (N.eqb_spec 0 (xor_sum (m0 :: msg'))) as [E | _]; [congruence|].
  reflexivity.
Qed.

(** One corrupted byte of a codeword is always detected: the block is
    refused by [rs_decode_simple], hence by the extraction. *)
Theorem single_byte_corruption_detected (data : list N) (i : nat) (v : N) :
  is_bytes data -> v < 256 ->
  (i < length data + RS_NSYM)%nat ->
  v <> idx (rs_encode data RS_NSYM) i ->
  rs_decode_simple (<[i := v]> (rs_encode data RS_NSYM)) RS_NSYM = None.
Proof.
  intros Hdata Hv Hi Hneq.
  pose proof (rs_encode_bytes data Hdata) as Hcw.
  pose proof (rs_encode_length data Hdata) as Hlen.
  destruct (rs_encode_parity data Hdata) as (parity & Hcwe & _ & _ & Hroots).
  set (cw := rs_encode data RS_NSYM) in *.
  assert (Hold : cw !! i = Some (idx cw i)) by (apply idx_lookup; lia).
  assert (Hsum0 : xor_sum cw = 0).
  { specialize (Hroots 0%nat ltac:(unfold RS_NSYM; lia)).
    rewrite <- Hcwe in Hroots. change (idx GF_EXP 0) with 1 in Hroots.
    rewrite horner_1 in Hroots by (done || lia). by rewrite N.lxor_0_l in Hroots. }
  apply rs_decode_xor_sum; [| unfold RS_NSYM; lia |].
  - apply Forall_insert; done.
  - rewrite insert_take_drop by lia.
    rewrite <- (take_drop_middle cw i (idx cw i) Hold) in Hsum0.
    rewrite xor_sum_app, xor_sum_cons in *.
    intros E. apply N.lxor_eq in Hsum0, E.
    assert (Hcancel : forall x b, N.lxor (N.lxor x b) b = x)
      by (intros; by rewrite N.lxor_assoc, N.lxor_nilpotent, N.lxor_0_r).
    apply Hneq.
    rewrite <- (Hcancel v (xor_sum (drop (S i) cw))), <- E, Hsum0. apply Hcancel.
Qed.

Lemma single_byte_corruption_detected_witness :
  rs_decode_simple (<[2%nat := 0]> (rs_encode [104; 101; 108; 108; 111] RS_NSYM)) RS_NSYM = None.
Proof.
  apply single_byte_corruption_detected.
  - by repeat constructor.
  - reflexivity.
  - vm_compute. lia.
  - vm_compute. discriminate.
Defined.

(** ** The watermark engine *)




Section WatermarkExtras.
Context `{PyLib}.



End WatermarkExtras.



(** Bytes spread into bits, most significant first, are read back by
    the extractor as the same bytes. *)
Theorem bits_bytes_roundtrip (payload : list N) :
  is_bytes payload ->
  length (bytes_to_bits payload) = (8 * length payload)%nat /\
  Forall is_bit (bytes_to_bits payload) /\
  bits_to_bytes (bytes_to_bits payload) = payload.
Proof.
  intros Hp. split; [apply bytes_to_bits_length|].
  split; [apply bytes_to_bits_are_bits | by apply bits_to_bytes_bits].
Qed.

Lemma bits_bytes_roundtrip_witness :
  bytes_to_bits [165; 1] = [1; 0; 1; 0; 0; 1; 0; 1; 0; 0; 0; 0; 0; 0; 0; 1] /\
  bits_to_bytes (bytes_to_bits [165; 1]) = [165; 1].
Proof.
  split; [reflexivity|].
  apply (bits_bytes_roundtrip [165; 1]). by repeat constructor.
Defined.

Section WatermarkExtraExamples.
Import Examples.
#[local] Existing Instance FlatJson.lib.



End WatermarkExtraExamples.

(** ** Hexadecimal strings and byte orders *)

(** [unhexlify] undoes [hex]; it accepts a string only if its length is
    even, and then returns half as many bytes. *)
Theorem hex_unhexlify_roundtrip (bs : list N) (s : string) :
  (is_bytes bs -> unhexlify (hex bs) = Some bs /\ String.length (hex bs) = (2 * length bs)%nat) /\
  (forall l, unhexlify s = Some l -> String.length s = (2 * length l)%nat /\ is_bytes l) /\
  (Nat.Odd (String.length s) -> unhexlify s = None).
Proof.
  split; [intros Hbs; split; [by apply unhexlify_hex | apply hex_length]|].
  split; [intros l Hl; split; [by apply unhexlify_length | by eapply unhexlify_bytes]|].
  intros [k Hk]. destruct (unhexlify s) as [l|] eqn:E; [|reflexivity].
  apply unhexlify_length in E. lia.
Qed.

Lemma hex_unhexlify_roundtrip_witness :
  unhexlify (hex [0; 171; 255]) = Some [0; 171; 255] /\
  unhexlify "abc" = None.
Proof.
  split.
  - apply (proj1 (hex_unhexlify_roundtrip [0; 171; 255] "")). by repeat constructor.
  - apply (proj2 (proj2 (hex_unhexlify_roundtrip [] "abc"))). exists 1%nat. reflexivity.
Defined.

Lemma reverse_bytes_nil : reverse_bytes "" = EmptyString.
Proof. reflexivity. Qed.

Lemma reverse_bytes_even_length (s : string) :
  Nat.Even (String.length s) -> String.length (reverse_bytes s) = String.length s.
Proof.
  induction s as [| c | c1 c2 s IH] using string_pair_ind; intros Hev.
  - reflexivity.
  - destruct Hev as [k Hk]. cbn in Hk. lia.
  - assert (Hs : Nat.Even (String.length s)).
    { destruct Hev as [k Hk]. exists (k - 1)%nat. cbn in Hk. lia. }
    rewrite reverse_bytes_cons2, string_length_app, IH by done. cbn. lia.
Qed.

Lemma reverse_bytes_snoc2 (a : string) (x y : ascii) :
  Nat.Even (String.length a) ->
  reverse_bytes (a ++ String x (String y "")) = (String x (String y "") ++ reverse_bytes a)%string.
Proof.
  induction a as [| c | c1 c2 a IH] using string_pair_ind; intros Hev.
  - reflexivity.
  - destruct Hev as [k Hk]. cbn in Hk. lia.
  - assert (Ha : Nat.Even (String.length a)).
    { destruct Hev as [k Hk]. exists (k - 1)%nat. cbn in Hk. lia. }
    rewrite !string_app_cons.
    rewrite reverse_bytes_cons2.
    + rewrite IH, reverse_bytes_cons2, string_app_assoc by done. reflexivity.
    + destruct Ha as [k Hk]. exists (S k). rewrite string_length_app, Hk. cbn. lia.
Qed.

Lemma reverse_bytes_odd (c : ascii) (s : string) :
  Nat.Even (String.length s) -> reverse_bytes (String c s) = reverse_bytes s.
Proof.
  intros [h Hh]. rewrite !reverse_bytes_chunks. cbn [String.length]. rewrite Hh.
  replace (S (2 * h) / 2)%nat with h.
  2:{ replace (S (2 * h)) with (1 + h * 2)%nat by lia.
      rewrite Nat.div_add by lia. reflexivity. }
  replace (2 * h / 2)%nat with h by (rewrite Nat.mul_comm, Nat.div_mul; lia).
  f_equal. apply map_ext_in. intros k Hk. apply in_seq in Hk.
  replace (S (2 * h) - 2 - 2 * k)%nat with (S (2 * h - 2 - 2 * k)) by lia.
  reflexivity.
Qed.

(** [reverse_bytes] works on pairs of characters counted from the end:
    on a string of even length it is its own inverse and stands for the
    reversed bytes; on a string of odd length the first character is lost. *)
Theorem reverse_bytes_involutive (s : string) :
  Nat.Even (String.length s) ->
  String.length (reverse_bytes s) = String.length s /\
  reverse_bytes (reverse_bytes s) = s /\
  (forall c, reverse_bytes (String c s) = reverse_bytes s) /\
  (forall bs, unhexlify s = Some bs -> unhexlify (reverse_bytes s) = Some (rev bs)).
Proof.
  intros Hev. split; [by apply reverse_bytes_even_length|].
  split; [|split; [intros c; by apply reverse_bytes_odd | apply unhexlify_reverse_bytes]].
  induction s as [| c | c1 c2 s IH] using string_pair_ind.
  - reflexivity.
  - destruct Hev as [k Hk]. cbn in Hk. lia.
  - assert (Hs : Nat.Even (String.length s)).
    { destruct Hev as [k Hk]. exists (k - 1)%nat. cbn in Hk. lia. }
    rewrite reverse_bytes_cons2, reverse_bytes_snoc2, IH by
      (done || by rewrite reverse_bytes_even_length).
    reflexivity.
Qed.

Lemma reverse_bytes_involutive_witness :
  reverse_bytes (reverse_bytes "1d00ffff") = "1d00ffff"%string /\
  reverse_bytes "a1d00ffff" = reverse_bytes "1d00ffff" /\
  unhexlify (reverse_bytes "1d00ffff") = Some (rev [29; 0; 255; 255]).
Proof.
  assert (Hev : Nat.Even (String.length "1d00ffff")) by (exists 4%nat; reflexivity).
  destruct (reverse_bytes_involutive "1d00ffff" Hev) as (_ & Hinv & Hodd & Hbytes).
  split; [exact Hinv|]. split; [apply Hodd | by apply Hbytes].
Defined.

(** [swab32] reverses the bytes inside every group of four and drops an
    incomplete last group; on a field of four bytes (eight characters) it
    is the same as [reverse_bytes], so such a field has two distinct
    renderings, not three. *)
Theorem swab32_words (s : string) :
  (forall bs, unhexlify s = Some bs -> unhexlify (swab32 s) = Some (swab_bytes bs)) /\
  ((String.length s < 8)%nat -> swab32 s = EmptyString) /\
  (String.length s = 8%nat -> swab32 s = reverse_bytes s).
Proof.
  split; [apply unhexlify_swab32|]. split; [apply swab32_short|].
  intros Hlen.
  do 8 (destruct s as [|? s]; [discriminate|]).
  destruct s; [|discriminate]. reflexivity.
Qed.

Lemma swab32_words_witness :
  unhexlify (swab32 "0123456789abcdef0011") = Some [103; 69; 35; 1; 239; 205; 171; 137] /\
  swab32 "1234567" = EmptyString /\
  swab32 "6964c85e" = reverse_bytes "6964c85e".
Proof.
  destruct (swab32_words "0123456789abcdef0011") as (Hbytes & _ & _).
  destruct (swab32_words "1234567") as (_ & Hshort & _).
  destruct (swab32_words "6964c85e") as (_ & _ & Heq).
  split; [apply (Hbytes [1; 35; 69; 103; 137; 171; 205; 239; 0; 17]); reflexivity|].
  split; [apply Hshort; cbn; lia | apply Heq; reflexivity].
Defined.

(** ** The verifier *)

(** A digest has 32 bytes; so has a double digest, whose hexadecimal
    text has 64 characters and is read back by [unhexlify]. *)
Theorem double_sha256_digest (data : list N) :
  length (double_sha256 data) = 32%nat /\
  is_bytes (double_sha256 data) /\
  String.length (hex (double_sha256 data)) = 64%nat /\
  unhexlify (hex (double_sha256 data)) = Some (double_sha256 data).
Proof.
  unfold double_sha256. split; [apply sha256_length|]. split; [apply sha256_bytes|].
  split; [rewrite hex_length, sha256_length; reflexivity|].
  apply unhexlify_hex, sha256_bytes.
Qed.

(** The digest of the three bytes "abc", as published with the standard. *)
Lemma sha256_abc :
  hex (sha256 [97; 98; 99]) =
  "ba7816bf8f01cfea414140de5dae2223b00361a396177a9cb410ff61f20015ad"%string.
Proof. vm_compute. reflexivity. Qed.

(** Before the search: a missing file or a missing hash entry gives
    [False] without any hash being computed; with the hash entry right
    and another of the entries missing, [verify_art] raises. *)
Theorem verify_art_missing_data (fs : gmap string PngImage) (image_path : string) :
  (fs !! image_path = None -> verify_art fs image_path = (Return false, [])) /\
  (forall img, fs !! image_path = Some img ->
     info img !! "Silicon-Auth-Hash"%string = None ->
     verify_art fs image_path = (Return false, [])) /\
  (forall img key, fs !! image_path = Some img ->
     info img !! "Silicon-Auth-Hash"%string = Some (hex (sha256 (tobytes img))) ->
     key ∈ read_keys -> info img !! key = None ->
     verify_art fs image_path = (Raise, [HashPixels (tobytes img)])).
Proof.
  split; [|split].
  - intros Hfs. unfold verify_art. by rewrite Hfs.
  - intros img Himg Hhash. unfold verify_art. by rewrite Himg, Hhash.
  - intros img key Himg Hhash Hkey Hnone. unfold verify_art.
    rewrite Himg, Hhash, String.eqb_refl. cbn [negb].
    assert (Hcomp : extract_components (info img) = None); [|by rewrite Hcomp].
    unfold extract_components, read_keys in *.
    repeat (apply elem_of_cons in Hkey as [-> | Hkey];
            [first [congruence | rewrite ?Hhash, Hnone;
                    repeat (destruct (info img !! _); cbn; try reflexivity)]|]).
    by apply elem_of_nil in Hkey.
Qed.

Section VerifierExtraExamples.
Import VerifierExamples.

Lemma verify_art_missing_data_witness :
  verify_art ∅ "a.png" = (Return false, []) /\
  verify_art {[ "a.png"%string := {| info := ∅; tobytes := px |} ]} "a.png" = (Return false, []) /\
  verify_art {[ "a.png"%string :=
                  {| info := delete "Silicon-Auth-Nonce"%string meta_ok; tobytes := px |} ]}
             "a.png" = (Raise, [HashPixels px]).
Proof.
  split; [|split].
  - apply (proj1 (verify_art_missing_data ∅ "a.png")). reflexivity.
  - apply (proj1 (proj2 (verify_art_missing_data _ "a.png")) {| info := ∅; tobytes := px |});
      reflexivity.
  - apply (proj2 (proj2 (verify_art_missing_data _ "a.png"))
             {| info := delete "Silicon-Auth-Nonce"%string meta_ok; tobytes := px |}
             "Silicon-Auth-Nonce"%string).
    + reflexivity.
    + reflexivity.
    + unfold read_keys. rewrite !elem_of_cons. tauto.
    + reflexivity.
Defined.

End VerifierExtraExamples.

(** ** The watermark: what extraction returns *)

Section ExtractionSoundness.
Context `{PyLib}.

Lemma extract_loop_sound (all_bits : list N) (spb : nat) (reps : list nat) (sig : pyobj) :
  sig ∈ (extract_loop all_bits spb reps).1 ->
  exists block, block ∈ (extract_loop all_bits spb reps).2 /\ try_copy block = Some sig.
Proof.
  induction reps as [|rep reps IH]; cbn [extract_loop].
  - intros Hin. by apply elem_of_nil in Hin.
  - destruct (_ <? _)%nat; [intros Hin; by apply elem_of_nil in Hin|].
    destruct (extract_loop all_bits spb reps) as [candidates attempts].
    cbn [fst snd] in *. intros Hin.
    assert (Hrest : sig ∈ candidates ->
              exists block, block ∈ copy_bytes all_bits spb rep :: attempts /\
                            try_copy block = Some sig).
    { intros Hc. destruct (IH Hc) as (block & Hb & Ht). exists block.
      split; [apply elem_of_cons; by right | done]. }
    destruct (try_copy (copy_bytes all_bits spb rep)) as [s|] eqn:Etry; [|by apply Hrest].
    apply elem_of_cons in Hin as [-> | Hin]; [|by apply Hrest].
    eexists. split; [apply elem_of_cons; by left | exact Etry].
Qed.

(** Whatever the pixels are, a signature that [extract_watermark] returns
    was parsed from the data part of a block it decoded, all syndromes
    of that block are zero, and the signature is true in Python's sense:
    an empty record is never returned. *)
Theorem extracted_signature_sound (flat : list N) (sig : pyobj) :
  (extract_from flat).1 = Some sig ->
  py_truthy sig = true /\
  exists block synd,
    block ∈ (extract_from flat).2 /\
    rs_syndromes block RS_NSYM = Some synd /\
    Forall (fun s => s = 0) synd /\
    json_loads (take (length block - RS_NSYM) block) = Some sig.
Proof.
  unfold extract_from. destruct (_ || _); [discriminate|].
  pose proof (extract_loop_sound (map (fun b => N.land b 1) flat)
    ((4 + N.to_nat (bits_to_int (take 32 (map (fun b => N.land b 1) flat)))) * 8)
    (seq 0 SIGNATURE_REPEATS) sig) as Hsound.
  destruct (extract_loop _ _ _) as [candidates attempts]. cbn [fst snd] in *.
  intros Hhead. destruct candidates as [|c candidates]; [discriminate|].
  injection Hhead as ->.
  destruct (Hsound ltac:(apply elem_of_cons; by left)) as (block & Hin & Htry).
  unfold try_copy, rs_decode_simple in Htry.
  destruct (rs_syndromes block RS_NSYM) as [synd|] eqn:Esynd; [|discriminate].
  cbn [mbind option_bind] in Htry.
  destruct (max_is_zero synd) eqn:Ezero; [|discriminate].
  unfold decode_signature, drop_last in Htry.
  destruct (json_loads _) as [s|] eqn:Eload; [|discriminate].
  destruct (py_truthy s) eqn:Etrue; [|discriminate].
  injection Htry as ->. split; [exact Etrue|].
  exists block, synd. split; [exact Hin|]. split; [exact Esynd|]. split; [|exact Eload].
  apply List.Forall_forall. intros x Hx.
  unfold max_is_zero in Ezero. rewrite forallb_forall in Ezero.
  specialize (Ezero x Hx). apply N.eqb_eq in Ezero. done.
Qed.


End ExtractionSoundness.

Section ExtractionSoundnessWitnesses.
Import Examples.
#[local] Existing Instance FlatJson.lib.

Lemma extracted_signature_sound_witness :
  py_truthy sig0 = true /\
  exists block synd,
    block ∈ (extract_from flat_w0).2 /\
    rs_syndromes block RS_NSYM = Some synd /\
    Forall (fun s => s = 0) synd /\
    json_loads (take (length block - RS_NSYM) block) = Some sig0.
Proof.
  apply (@extracted_signature_sound FlatJson.lib flat_w0 sig0). vm_compute. reflexivity.
Defined.


End ExtractionSoundnessWitnesses.

(** ** The bridge: every message, and the dispatcher *)

Section BridgeExtras.
Import Bridge Dispatch.

Lemma int16_step_digit (a d : N) :
  d < 16 ->
  (n ← Some a; d' ← hex_value (hex_digit d); Some (16 * n + d')) = Some (16 * a + d).
Proof. intros Hd. cbn. by rewrite hex_value_digit. Qed.

Lemma hex_digits_value (fuel : nat) (n : N) (acc : string) :
  n < 2 ^ N.of_nat fuel ->
  foldl (fun acc c => n ← acc; d ← hex_value c; Some (16 * n + d)) (Some 0)
        (list_ascii_of_string (hex_digits fuel n acc)) =
  foldl (fun acc c => n ← acc; d ← hex_value c; Some (16 * n + d)) (Some n)
        (list_ascii_of_string acc).
Proof.
  revert n acc. induction fuel as [|fuel IH]; intros n acc Hn.
  - cbn in Hn. replace n with 0 by lia. reflexivity.
  - cbn [hex_digits].
    assert (Hmod : n mod 16 < 16) by (apply N.mod_upper_bound; lia).
    pose proof (N.div_mod n 16 ltac:(lia)) as Hdm.
    destruct (N.eqb_spec (n / 16) 0) as [E | E].
    + cbn [list_ascii_of_string foldl]. rewrite int16_step_digit by done.
      do 2 f_equal. lia.
    + rewrite IH.
      * cbn [list_ascii_of_string foldl]. rewrite int16_step_digit by done.
        do 2 f_equal. lia.
      * rewrite Nat2N.inj_succ, N.pow_succ_r' in Hn.
        apply N.Div0.div_lt_upper_bound. lia.
Qed.

Lemma format_hex_value (k : N) : int16 (format_hex k) = Some k.
Proof.
  unfold int16, format_hex. rewrite hex_digits_value; [reflexivity|].
  rewrite Nat2N.inj_succ, N2Nat.id.
  destruct (N.eq_dec k 0) as [-> | Hk]; [reflexivity|].
  apply N.log2_spec. lia.
Qed.

Lemma format_hex_inj (n m : N) : format_hex n = format_hex m -> n = m.
Proof.
  intros E. pose proof (format_hex_value n) as Hn.
  rewrite E, format_hex_value in Hn. by injection Hn.
Qed.

(** [f"{n:x}"] is read back by [int(s, 16)]: distinct numbers have
    distinct texts. *)
Theorem format_hex_injective (n m : N) :
  int16 (format_hex n) = Some n /\ (format_hex n = format_hex m -> n = m).
Proof. split; [apply format_hex_value | apply format_hex_inj]. Qed.

Lemma format_hex_injective_witness :
  int16 (format_hex 255) = Some 255 /\ (format_hex 255 = format_hex 255 -> 255 = 255).
Proof. apply format_hex_injective. Defined.

Lemma str_repeat_length (c : ascii) (n : nat) :
  String.length (str_repeat (String c EmptyString) n) = n.
Proof.
  induction n as [|n IH]; [reflexivity|].
  cbn [str_repeat]. rewrite string_length_app, IH. reflexivity.
Qed.

Lemma substring_0_length (n : nat) (s : string) :
  String.length (substring 0 n s) = Nat.min n (String.length s).
Proof.
  revert s. induction n as [|n IH]; intros s; [by destruct s|].
  destruct s as [|c s]; [reflexivity|]. cbn. by rewrite IH.
Qed.

Lemma substring_0_all (n : nat) (s : string) :
  (String.length s <= n)%nat -> substring 0 n s = s.
Proof.
  revert s. induction n as [|n IH]; intros s Hs.
  - destruct s; [reflexivity | cbn in Hs; lia].
  - destruct s as [|c s]; [reflexivity|]. cbn in *. rewrite IH by lia. reflexivity.
Qed.

Lemma pad_prev_hash_full (data_hex : string) :
  String.length data_hex = 64%nat -> pad_prev_hash data_hex = data_hex.
Proof.
  intros Hlen. unfold pad_prev_hash, str_slice. change (64 - 0)%nat with 64%nat.
  rewrite substring_0_all by lia. rewrite Hlen. apply string_app_nil_r.
Qed.

(** The previous-hash field of a job always has 64 characters: the first
    64 of the payload, or the whole payload followed by zeros. *)
Theorem pad_prev_hash_length (data_hex : string) :
  String.length (pad_prev_hash data_hex) = 64%nat /\
  ((String.length data_hex <= 64)%nat ->
   pad_prev_hash data_hex =
   (data_hex ++ str_repeat "0" (64 - String.length data_hex))%string) /\
  ((64 <= String.length data_hex)%nat -> pad_prev_hash data_hex = substring 0 64 data_hex).
Proof.
  unfold pad_prev_hash, str_slice. change (64 - 0)%nat with 64%nat.
  split; [|split].
  - rewrite string_length_app, str_repeat_length, substring_0_length. lia.
  - intros Hle. by rewrite substring_0_all.
  - intros Hge. rewrite substring_0_length.
    replace (64 - Nat.min 64 (String.length data_hex))%nat with 0%nat by lia.
    apply string_app_nil_r.
Qed.

Lemma pad_prev_hash_length_witness :
  pad_prev_hash "abcd" = ("abcd" ++ str_repeat "0" 60)%string /\
  pad_prev_hash (str_repeat "ab" 40) = str_repeat "ab" 32.
Proof.
  split.
  - apply (proj1 (proj2 (pad_prev_hash_length "abcd"))). cbn. lia.
  - etransitivity; [apply (proj2 (proj2 (pad_prev_hash_length (str_repeat "ab" 40))))|].
    + vm_compute. lia.
    + reflexivity.
Defined.

Lemma method_cases {A : Type} (s : string) (a b c d : A) :
  match s with
  | "mining.subscribe"%string => a
  | "mining.authorize"%string => b
  | "mining.submit"%string => c
  | _ => d
  end =
  if String.eqb s "mining.subscribe" then a
  else if String.eqb s "mining.authorize" then b
  else if String.eqb s "mining.submit" then c
  else d.
Proof.
  repeat (first [ reflexivity
                | match goal with
                  | |- context [match ?s with EmptyString => _ | String _ _ => _ end] =>
                    is_var s; destruct s as [|[[] [] [] [] [] [] [] []] ?]
                  end ]).
Qed.

Lemma method_cases_ind {A : Type} (P : A -> Prop) (s : string) (a b c d : A) :
  P a -> P b -> P c -> P d ->
  P match s with
    | "mining.subscribe"%string => a
    | "mining.authorize"%string => b
    | "mining.submit"%string => c
    | _ => d
    end.
Proof. intros Ha Hb Hc Hd. rewrite method_cases. by repeat destruct (String.eqb _ _). Qed.

Lemma send_ok_true (broken : gset sock) (c : sock) : c ∉ broken -> send_ok broken c = true.
Proof. intros Hc. unfold send_ok. by apply bool_decide_eq_true_2. Qed.

Lemma send_ok_false (broken : gset sock) (c : sock) : c ∈ broken -> send_ok broken c = false.
Proof. intros Hc. unfold send_ok. apply bool_decide_eq_false_2. by intros []. Qed.

Lemma handler_ok_same (self : DualBridge) (conn : sock) (r : py unit) (events : list event) :
  (forall c m, Send c m ∈ events -> c = conn) ->
  (forall c, Close c ∉ events) ->
  handler_ok self conn (r, self, events).
Proof.
  intros Hsend Hclose. repeat split; [done | |].
  - intros c m Hin. left. by eapply Hsend.
  - intros c Hin. by destruct (Hclose c).
Qed.

Lemma complete_job_ok (broken : gset sock) (self : DualBridge) (conn : sock)
    (job_id nonce params : jval) :
  handler_ok self conn (complete_job broken self job_id nonce params).
Proof.
  assert (Hlocked : forall k,
            handler_ok self conn (Raise, self, [LockAcquire; PopJob k; LockRelease])).
  { intros k. apply handler_ok_same; [intros c m Hin | intros c Hin]; events_in Hin. }
  assert (Hdel : forall s k,
            handler_ok self conn
              (Return tt, {| running := running self; s9_conn := s9_conn self;
                     job_counter := job_counter self;
                     pending_jobs := delete s (pending_jobs self) |},
               [LockAcquire; PopJob k; LockRelease])).
  { intros s k. repeat split; cbn [running s9_conn job_counter pending_jobs].
    - intros k' c Hk'. by apply lookup_delete_Some in Hk' as [_ ?].
    - intros c m Hin. events_in Hin.
    - intros c Hin. events_in Hin. }
  assert (Hsame : forall k,
            handler_ok self conn
              (Return tt, {| running := running self; s9_conn := s9_conn self;
                     job_counter := job_counter self;
                     pending_jobs := pending_jobs self |},
               [LockAcquire; PopJob k; LockRelease])).
  { intros k. repeat split; cbn [running s9_conn job_counter pending_jobs]; [done | |].
    - intros c m Hin. events_in Hin.
    - intros c Hin. events_in Hin. }
  unfold complete_job.
  destruct job_id as [|b|n|s|l|d]; cbn [pending_pop]; try apply Hlocked; try apply Hsame.
  destruct (pending_jobs self !! s) as [client|] eqn:Eclient; [|apply Hdel].
  destruct (send_ok broken client); [|apply Hdel].
  repeat split; cbn [running s9_conn job_counter pending_jobs].
  - intros k' c Hk'. by apply lookup_delete_Some in Hk' as [_ ?].
  - intros c m Hin. cbn [app] in Hin. events_in Hin.
    right. exists s. split; [done | apply lookup_delete_eq].
  - intros c Hin. cbn [app] in Hin. events_in Hin.
    exists s. split; [done | apply lookup_delete_eq].
Qed.

Lemma handler_ok_ack (self self' : DualBridge) (conn : sock) (r : py unit)
    (events : list event) (m : jval) :
  handler_ok self conn (r, self', events) ->
  handler_ok self conn (r, self', Send conn m :: events).
Proof.
  intros (Hst & Hpend & Hsend & Hclose). repeat split; [done | done | |].
  - intros c m' Hin. apply elem_of_cons in Hin as [Hin | Hin]; [|by eapply Hsend].
    left. by injection Hin.
  - intros c Hin. apply elem_of_cons in Hin as [Hin | Hin]; [discriminate | by apply Hclose].
Qed.

Lemma handle_stratum_message_ok (broken : gset sock) (self : DualBridge) (conn : sock)
    (parsed : option jval) :
  handler_ok self conn (handle_stratum_message broken self conn parsed).
Proof.
  assert (Hnil : forall r : py unit, handler_ok self conn (r, self, [])).
  { intros r. apply handler_ok_same; [intros c m Hin | intros c Hin]; events_in Hin. }
  destruct parsed as [[|b|n|s|l|msg]|]; try apply Hnil.
  unfold handle_stratum_message.
  destruct (dict_get msg "method" JNull) as [|b|n|method|l|d]; try apply Hnil.
  apply (method_cases_ind (handler_ok self conn)); [| | |apply Hnil].
  - destruct (send_ok broken conn); [|apply Hnil].
    apply handler_ok_same; [intros c m Hin | intros c Hin]; events_in Hin. reflexivity.
  - destruct (send_ok broken conn); [|apply Hnil].
    apply handler_ok_same; [intros c m Hin | intros c Hin]; events_in Hin; reflexivity.
  - destruct (getitem _ 1) as [job_id|]; [|apply Hnil].
    destruct (getitem _ 4) as [nonce|]; [|apply Hnil].
    destruct (send_ok broken conn); [|apply Hnil].
    pose proof (complete_job_ok broken self conn job_id nonce
                  (dict_get msg "params" (JList []))) as Hjob.
    destruct (complete_job _ _ _ _ _) as [[r self'] events].
    by apply handler_ok_ack.
Qed.

(** Whatever line the device sends, [handle_stratum_message] leaves the
    flags, the device connection and the job counter alone, adds no
    pending job, writes only to the device and to requesters it removes
    from the table, and closes only such requesters. *)
Theorem handler_frame (broken : gset sock) (self : DualBridge) (conn : sock)
    (parsed : option jval) :
  handler_ok self conn (handle_stratum_message broken self conn parsed).
Proof. apply handle_stratum_message_ok. Qed.

Lemma handle_submit (broken : gset sock) (self : DualBridge) (conn : sock)
    (msg : list (string * jval)) (job_id nonce : jval) :
  dict_get msg "method" JNull = JStr "mining.submit" ->
  getitem (dict_get msg "params" (JList [])) 1 = Some job_id ->
  getitem (dict_get msg "params" (JList [])) 4 = Some nonce ->
  conn ∉ broken ->
  handle_stratum_message broken self conn (Some (JDict msg)) =
  let '(r, self', events) :=
    complete_job broken self job_id nonce (dict_get msg "params" (JList [])) in
  (r, self', Send conn (submit_ack (dict_get msg "id" JNull)) :: events).
Proof.
  intros Hmethod Hjob Hnonce Hconn.
  unfold handle_stratum_message. rewrite Hmethod. cbv iota beta.
  rewrite Hjob, Hnonce, (send_ok_true _ _ Hconn). reflexivity.
Qed.

Lemma bridge_eta (self : DualBridge) :
  {| running := running self; s9_conn := s9_conn self;
     job_counter := job_counter self; pending_jobs := pending_jobs self |} = self.
Proof. by destruct self. Qed.

Lemma complete_job_unknown (broken : gset sock) (self : DualBridge) (jid : string)
    (nonce params : jval) :
  pending_jobs self !! jid = None ->
  complete_job broken self (JStr jid) nonce params =
  (Return tt, self, [LockAcquire; PopJob (JStr jid); LockRelease]).
Proof.
  intros Hnone. unfold complete_job. cbn [pending_pop]. rewrite Hnone.
  rewrite delete_id by done. by rewrite bridge_eta.
Qed.

(** A submit whose parameters have no element 1 or no element 4 (too
    short a list, a missing key, a value that cannot be indexed) raises
    before anything is sent: the device gets no acknowledgement and no job
    is touched. *)
Theorem submit_malformed_raises (broken : gset sock) (self : DualBridge) (conn : sock)
    (msg : list (string * jval)) :
  dict_get msg "method" JNull = JStr "mining.submit" ->
  getitem (dict_get msg "params" (JList [])) 1 = None \/
  getitem (dict_get msg "params" (JList [])) 4 = None ->
  handle_stratum_message broken self conn (Some (JDict msg)) = (Raise, self, []).
Proof.
  intros Hmethod Hshort. unfold handle_stratum_message. rewrite Hmethod. cbv iota beta.
  destruct Hshort as [-> | ->]; [reflexivity|]. by destruct (getitem _ 1).
Qed.

Lemma submit_malformed_raises_witness :
  handle_stratum_message ∅ BridgeExamples.bridge0 3%nat
    (Some (JDict [("id"%string, JNum 9); ("method"%string, JStr "mining.submit");
                  ("params"%string, JList [JStr "worker"; JStr "1"])])) =
  (Raise, BridgeExamples.bridge0, []).
Proof. apply submit_malformed_raises; [reflexivity | by right]. Defined.

(** When the requester of a job cannot be written to, the share is still
    acknowledged to the device and the job leaves the table, but the
    requester is neither answered nor closed. *)
Theorem submit_requester_broken (broken : gset sock) (self : DualBridge) (conn client : sock)
    (msg : list (string * jval)) (jid : string) (nonce : jval) :
  dict_get msg "method" JNull = JStr "mining.submit" ->
  getitem (dict_get msg "params" (JList [])) 1 = Some (JStr jid) ->
  getitem (dict_get msg "params" (JList [])) 4 = Some nonce ->
  conn ∉ broken ->
  pending_jobs self !! jid = Some client ->
  client ∈ broken ->
  exists self',
    handle_stratum_message broken self conn (Some (JDict msg)) =
    (Return tt, self',
     [Send conn (submit_ack (dict_get msg "id" JNull));
      LockAcquire; PopJob (JStr jid); LockRelease]) /\
    pending_jobs self' = delete jid (pending_jobs self) /\
    pending_jobs self' !! jid = None.
Proof.
  intros Hmethod Hjob Hnonce Hconn Hclient Hbroken.
  rewrite (handle_submit _ _ _ _ _ _ Hmethod Hjob Hnonce Hconn).
  unfold complete_job. cbn [pending_pop]. rewrite Hclient, (send_ok_false _ _ Hbroken).
  eexists. split; [reflexivity|]. cbn [pending_jobs].
  split; [reflexivity | apply lookup_delete_eq].
Qed.

Lemma submit_requester_broken_witness :
  exists self',
    handle_stratum_message {[ 7%nat ]} BridgeExamples.bridge0 3%nat
      (Some (JDict BridgeExamples.submit_msg)) =
    (Return tt, self',
     [Send 3%nat (submit_ack (JNum 4)); LockAcquire; PopJob (JStr "1"); LockRelease]) /\
    pending_jobs self' !! "1"%string = None.
Proof.
  assert (Hconn : 3%nat ∉ ({[ 7%nat ]} : gset sock)).
  { intros Hin. apply elem_of_singleton in Hin. discriminate. }
  assert (Hbroken : 7%nat ∈ ({[ 7%nat ]} : gset sock)) by by apply elem_of_singleton.
  destruct (submit_requester_broken {[ 7%nat ]} BridgeExamples.bridge0 3%nat 7%nat
              BridgeExamples.submit_msg "1" (JStr "deadbeef")
              eq_refl eq_refl eq_refl Hconn eq_refl Hbroken)
    as (self' & Hrun & _ & Hgone).
  exists self'. by split.
Defined.

(** A job is answered at most once: after a share for a pending job, a
    second share for the same job is acknowledged to the device, and
    nothing else happens; the bridge is left as it was. *)
Theorem submit_twice_answers_once (broken : gset sock) (self : DualBridge) (conn : sock)
    (msg msg' : list (string * jval)) (jid : string) (nonce nonce' : jval) :
  dict_get msg "method" JNull = JStr "mining.submit" ->
  getitem (dict_get msg "params" (JList [])) 1 = Some (JStr jid) ->
  getitem (dict_get msg "params" (JList [])) 4 = Some nonce ->
  dict_get msg' "method" JNull = JStr "mining.submit" ->
  getitem (dict_get msg' "params" (JList [])) 1 = Some (JStr jid) ->
  getitem (dict_get msg' "params" (JList [])) 4 = Some nonce' ->
  conn ∉ broken ->
  let '(_, self1, _) := handle_stratum_message broken self conn (Some (JDict msg)) in
  handle_stratum_message broken self1 conn (Some (JDict msg')) =
  (Return tt, self1,
   [Send conn (submit_ack (dict_get msg' "id" JNull));
    LockAcquire; PopJob (JStr jid); LockRelease]).
Proof.
  intros Hmethod Hjob Hnonce Hmethod' Hjob' Hnonce' Hconn.
  rewrite (handle_submit _ _ _ _ _ _ Hmethod Hjob Hnonce Hconn).
  assert (Hgone : pending_jobs (complete_job broken self (JStr jid) nonce
                                  (dict_get msg "params" (JList []))).1.2 !! jid = None).
  { unfold complete_job. cbn [pending_pop].
    destruct (pending_jobs self !! jid) as [client|]; [destruct (send_ok broken client)|];
      apply lookup_delete_eq. }
  destruct (complete_job broken self (JStr jid) nonce _) as [[r self1] events].
  cbn [fst snd] in Hgone.
  rewrite (handle_submit _ _ _ _ _ _ Hmethod' Hjob' Hnonce' Hconn).
  by rewrite complete_job_unknown.
Qed.

Lemma submit_twice_answers_once_witness :
  let '(_, self1, _) :=
    handle_stratum_message ∅ BridgeExamples.bridge0 3%nat
      (Some (JDict BridgeExamples.submit_msg)) in
  handle_stratum_message ∅ self1 3%nat (Some (JDict BridgeExamples.submit_msg)) =
  (Return tt, self1,
   [Send 3%nat (submit_ack (JNum 4)); LockAcquire; PopJob (JStr "1"); LockRelease]).
Proof.
  apply (submit_twice_answers_once ∅ BridgeExamples.bridge0 3%nat
           BridgeExamples.submit_msg BridgeExamples.submit_msg "1"
           (JStr "deadbeef") (JStr "deadbeef"));
    try reflexivity.
  apply not_elem_of_empty.
Defined.

Lemma fresh_job_id (self : DualBridge) (n : N) :
  ids_in_range self -> job_counter self < n -> pending_jobs self !! format_hex n = None.
Proof.
  intros Hids Hn. destruct (pending_jobs self !! _) as [client|] eqn:E; [|reflexivity].
  destruct (Hids _ _ E) as (m & Hm & Heq). apply format_hex_inj in Heq. lia.
Qed.

Lemma handler_ok_ids (self : DualBridge) (conn : sock)
    (res : py unit * DualBridge * list event) :
  handler_ok self conn res -> ids_in_range self -> ids_in_range res.1.2.
Proof.
  destruct res as [[r self'] events]. intros (Hst & Hpend & _) Hids job_id client Hin.
  cbn [fst snd] in Hin. injection Hst as _ _ Hcounter.
  cbn [fst snd]. rewrite Hcounter. eapply Hids, Hpend, Hin.
Qed.

(** The identifiers in the pending table are always numbers handed out so
    far, written in hexadecimal: this holds for a bridge with an empty table,
    and the dispatcher and the message handler keep it.  So the
    dispatcher's next identifier is never in use, and storing it displaces
    no waiting requester. *)
Theorem job_ids_invariant (broken : gset sock) (now : N) (self : DualBridge)
    (conn client : sock) (data : jval) (parsed : option jval) :
  ids_in_range self ->
  ids_in_range (dispatch_request broken now self client data).1 /\
  ids_in_range (handle_stratum_message broken self conn parsed).1.2 /\
  pending_jobs self !! format_hex (job_counter self + 1) = None /\
  (forall k c, pending_jobs self !! k = Some c ->
     pending_jobs (dispatch_request broken now self client data).1 !! k = Some c).
Proof.
  intros Hids. pose proof (fresh_job_id self (job_counter self + 1) Hids ltac:(lia)) as Hfresh.
  split; [|split; [|split]].
  - unfold dispatch_request. destruct (s9_conn self) as [s9|]; [|exact Hids].
    assert (Hnew : ids_in_range
              {| running := running self; s9_conn := Some s9;
                 job_counter := job_counter self + 1;
                 pending_jobs := <[format_hex (job_counter self + 1) := client]>
                                   (pending_jobs self) |}).
    { intros job_id c Hin. cbn [pending_jobs job_counter] in *.
      apply lookup_insert_Some in Hin as [[<- _] | [_ Hin]].
      - exists (job_counter self + 1). split; [lia | reflexivity].
      - destruct (Hids _ _ Hin) as (n & Hn & Heq). exists n. split; [lia | exact Heq]. }
    by destruct data.
  - eapply handler_ok_ids; [|exact Hids].
    apply handle_stratum_message_ok.
  - exact Hfresh.
  - intros k c Hk. unfold dispatch_request. destruct (s9_conn self) as [s9|]; [|exact Hk].
    assert (Hne : format_hex (job_counter self + 1) <> k) by (intros <-; congruence).
    destruct data; cbn [fst pending_jobs]; by rewrite lookup_insert_ne.
Qed.

Lemma bridge0_ids : ids_in_range BridgeExamples.bridge0.
Proof.
  intros job_id client Hin. cbn [BridgeExamples.bridge0 pending_jobs job_counter] in *.
  apply lookup_insert_Some in Hin as [[<- _] | [_ Hin]].
  - exists 1. split; [lia | reflexivity].
  - apply lookup_singleton_Some in Hin as [<- _]. exists 2. split; [lia | reflexivity].
Qed.

Lemma job_ids_invariant_witness :
  ids_in_range (dispatch_request ∅ 1768220766 BridgeExamples.bridge0 9%nat (JStr "ab")).1 /\
  ids_in_range (handle_stratum_message ∅ BridgeExamples.bridge0 3%nat
                  (Some (JDict BridgeExamples.submit_msg))).1.2 /\
  pending_jobs BridgeExamples.bridge0 !! "3"%string = None.
Proof.
  destruct (job_ids_invariant ∅ 1768220766 BridgeExamples.bridge0 3%nat 9%nat (JStr "ab")
              (Some (JDict BridgeExamples.submit_msg)) bridge0_ids)
    as (Hdispatch & Hhandle & Hfresh & _).
  split; [exact Hdispatch|]. split; [exact Hhandle | exact Hfresh].
Defined.

(** A request whose data is not a string takes an identifier and a
    place in the pending table, and nothing is sent to the device or to
    the requester: the slice of the data raises after the job is stored. *)
Theorem dispatch_non_string_data (broken : gset sock) (now : N) (self : DualBridge)
    (client s9 : sock) (data : jval) :
  s9_conn self = Some s9 ->
  (forall data_hex, data <> JStr data_hex) ->
  dispatch_request broken now self client data =
  ({| running := running self; s9_conn := Some s9; job_counter := job_counter self + 1;
      pending_jobs := <[format_hex (job_counter self + 1) := client]> (pending_jobs self) |},
   [LockAcquire; LockRelease]).
Proof.
  intros Hs9 Hdata. unfold dispatch_request. rewrite Hs9.
  destruct data as [|b|n|s|l|d]; try reflexivity. by destruct (Hdata s).
Qed.

Lemma dispatch_non_string_data_witness :
  dispatch_request ∅ 1768220766 BridgeExamples.bridge0 9%nat (JNum 5) =
  ({| running := true; s9_conn := Some 3%nat; job_counter := 2 + 1;
      pending_jobs := <[format_hex (2 + 1) := 9%nat]> (pending_jobs BridgeExamples.bridge0) |},
   [LockAcquire; LockRelease]) /\
  truthy (JNum 5) = true.
Proof.
  split; [|reflexivity].
  apply (dispatch_non_string_data ∅ 1768220766 BridgeExamples.bridge0 9%nat 3%nat (JNum 5)
           eq_refl).
  intros data_hex. discriminate.
Defined.

Lemma dispatch_run (broken : gset sock) (now : N) (self : DualBridge) (client s9 : sock)
    (data_hex : string) :
  s9_conn self = Some s9 ->
  s9 ∉ broken ->
  dispatch_request broken now self client (JStr data_hex) =
  ({| running := running self; s9_conn := Some s9;
      job_counter := job_counter self + 1;
      pending_jobs := <[format_hex (job_counter self + 1) := client]> (pending_jobs self) |},
   [LockAcquire; LockRelease;
    Send s9 (notify_msg (format_hex (job_counter self + 1)) (pad_prev_hash data_hex) now)]).
Proof.
  intros Hs9 Hok. unfold dispatch_request, send_mining_notify. cbn [s9_conn].
  rewrite Hs9, (send_ok_true _ _ Hok). reflexivity.
Qed.

Lemma submit_for_run (broken : gset sock) (self : DualBridge) (conn client : sock)
    (msg_id : jval) (jid nonce : string) :
  conn ∉ broken ->
  client ∉ broken ->
  pending_jobs self !! jid = Some client ->
  handle_stratum_message broken self conn (Some (submit_for msg_id jid nonce)) =
  (Return tt,
   {| running := running self; s9_conn := s9_conn self; job_counter := job_counter self;
      pending_jobs := delete jid (pending_jobs self) |},
   [Send conn (submit_ack msg_id); LockAcquire; PopJob (JStr jid); LockRelease;
    Send client (submit_result (JStr jid) (JStr nonce)
                   (share_params jid nonce));
    Close client]).
Proof.
  intros Hconn Hclient Hjob. unfold submit_for.
  erewrite handle_submit; [|reflexivity|reflexivity|reflexivity|done].
  unfold complete_job. cbn [pending_pop]. rewrite Hjob, (send_ok_true _ _ Hclient).
  reflexivity.
Qed.

(** A request and its share: the dispatcher sends the device one job that
    carries the new identifier and the padded payload; when the device
    submits a share for that identifier, the requester of that job gets
    the result and is closed, and the pending table is what it was
    before the request. *)
Theorem dispatch_submit_roundtrip (broken : gset sock) (now : N) (self : DualBridge)
    (conn client s9 : sock) (data_hex nonce : string) (msg_id : jval) :
  ids_in_range self ->
  s9_conn self = Some s9 ->
  s9 ∉ broken -> conn ∉ broken -> client ∉ broken ->
  let job_id := format_hex (job_counter self + 1) in
  let '(self1, events1) := dispatch_request broken now self client (JStr data_hex) in
  events1 = [LockAcquire; LockRelease;
             Send s9 (notify_msg job_id (pad_prev_hash data_hex) now)] /\
  exists self2,
    handle_stratum_message broken self1 conn (Some (submit_for msg_id job_id nonce)) =
    (Return tt, self2,
     [Send conn (submit_ack msg_id); LockAcquire; PopJob (JStr job_id); LockRelease;
      Send client (submit_result (JStr job_id) (JStr nonce)
                     (share_params job_id nonce));
      Close client]) /\
    pending_jobs self2 = pending_jobs self /\
    job_counter self2 = job_counter self + 1.
Proof.
  intros Hids Hs9 Hdev Hconn Hclient job_id.
  rewrite (dispatch_run _ _ _ _ _ _ Hs9 Hdev). fold job_id.
  split; [reflexivity|]. eexists. split.
  - apply submit_for_run; [done | done |]. cbn [pending_jobs]. apply lookup_insert_eq.
  - cbn [pending_jobs job_counter]. split; [|reflexivity].
    apply delete_insert_id, fresh_job_id; [done | lia].
Qed.

Lemma dispatch_submit_roundtrip_witness :
  let '(self1, events1) :=
    dispatch_request ∅ 1768220766 BridgeExamples.bridge0 9%nat (JStr "ab") in
  events1 = [LockAcquire; LockRelease;
             Send 3%nat (notify_msg "3" (pad_prev_hash "ab") 1768220766)] /\
  exists self2,
    handle_stratum_message ∅ self1 3%nat (Some (submit_for (JNum 5) "3" "deadbeef")) =
    (Return tt, self2,
     [Send 3%nat (submit_ack (JNum 5)); LockAcquire; PopJob (JStr "3"); LockRelease;
      Send 9%nat (submit_result (JStr "3") (JStr "deadbeef")
                    (share_params "3" "deadbeef"));
      Close 9%nat]) /\
    pending_jobs self2 = pending_jobs BridgeExamples.bridge0 /\
    job_counter self2 = 3.
Proof.
  apply (dispatch_submit_roundtrip ∅ 1768220766 BridgeExamples.bridge0 3%nat 9%nat 3%nat
           "ab" "deadbeef" (JNum 5) bridge0_ids eq_refl);
    apply not_elem_of_empty.
Defined.

(** Replies follow the job identifier, not the order of arrival: with two
    requests dispatched one after the other, a share for the second job
    answers the second requester, a later share for the first job answers
    the first, and the table is then what it was. *)
Theorem replies_follow_job_ids (broken : gset sock) (now now' : N) (self : DualBridge)
    (conn a b s9 : sock) (data_a data_b nonce_a nonce_b : string) (id_a id_b : jval) :
  ids_in_range self ->
  s9_conn self = Some s9 ->
  s9 ∉ broken -> conn ∉ broken -> a ∉ broken -> b ∉ broken ->
  let job_a := format_hex (job_counter self + 1) in
  let job_b := format_hex (job_counter self + 2) in
  let self1 := (dispatch_request broken now self a (JStr data_a)).1 in
  let self2 := (dispatch_request broken now' self1 b (JStr data_b)).1 in
  exists self3 self4,
    handle_stratum_message broken self2 conn (Some (submit_for id_b job_b nonce_b)) =
    (Return tt, self3,
     [Send conn (submit_ack id_b); LockAcquire; PopJob (JStr job_b); LockRelease;
      Send b (submit_result (JStr job_b) (JStr nonce_b) (share_params job_b nonce_b));
      Close b]) /\
    handle_stratum_message broken self3 conn (Some (submit_for id_a job_a nonce_a)) =
    (Return tt, self4,
     [Send conn (submit_ack id_a); LockAcquire; PopJob (JStr job_a); LockRelease;
      Send a (submit_result (JStr job_a) (JStr nonce_a) (share_params job_a nonce_a));
      Close a]) /\
    pending_jobs self4 = pending_jobs self.
Proof.
  intros Hids Hs9 Hdev Hconn Ha Hb job_a job_b self1 self2.
  assert (Hne : job_b <> job_a).
  { intros E. apply format_hex_inj in E. lia. }
  assert (Hfresh_a : pending_jobs self !! job_a = None) by (apply fresh_job_id; [done | lia]).
  assert (Hfresh_b : pending_jobs self !! job_b = None) by (apply fresh_job_id; [done | lia]).
  subst self2 self1. rewrite (dispatch_run _ _ _ _ _ _ Hs9 Hdev). cbn [fst].
  erewrite dispatch_run; [|reflexivity|exact Hdev]. cbn [fst job_counter pending_jobs].
  replace (job_counter self + 1 + 1) with (job_counter self + 2) by lia.
  fold job_a job_b.
  eexists. eexists. split; [|split].
  - apply submit_for_run; [done | done |]. cbn [pending_jobs]. apply lookup_insert_eq.
  - apply submit_for_run; [done | done |]. cbn [pending_jobs].
    rewrite lookup_delete_ne by done. rewrite lookup_insert_ne by done.
    apply lookup_insert_eq.
  - cbn [pending_jobs]. rewrite (delete_insert_id _ job_b).
    + by apply delete_insert_id.
    + rewrite lookup_insert_ne by done. exact Hfresh_b.
Qed.

Lemma replies_follow_job_ids_witness :
  let self1 := (dispatch_request ∅ 1768220766 BridgeExamples.bridge0 9%nat (JStr "ab")).1 in
  let self2 := (dispatch_request ∅ 1768220767 self1 10%nat (JStr "cd")).1 in
  exists self3 self4,
    handle_stratum_message ∅ self2 3%nat (Some (submit_for (JNum 5) "4" "0000beef")) =
    (Return tt, self3,
     [Send 3%nat (submit_ack (JNum 5)); LockAcquire; PopJob (JStr "4"); LockRelease;
      Send 10%nat (submit_result (JStr "4") (JStr "0000beef") (share_params "4" "0000beef"));
      Close 10%nat]) /\
    handle_stratum_message ∅ self3 3%nat (Some (submit_for (JNum 6) "3" "deadbeef")) =
    (Return tt, self4,
     [Send 3%nat (submit_ack (JNum 6)); LockAcquire; PopJob (JStr "3"); LockRelease;
      Send 9%nat (submit_result (JStr "3") (JStr "deadbeef") (share_params "3" "deadbeef"));
      Close 9%nat]) /\
    pending_jobs self4 = pending_jobs BridgeExamples.bridge0.
Proof.
  apply (replies_follow_job_ids ∅ 1768220766 1768220767 BridgeExamples.bridge0
           3%nat 9%nat 10%nat 3%nat "ab" "cd" "deadbeef" "0000beef" (JNum 6) (JNum 5)
           bridge0_ids eq_refl);
    apply not_elem_of_empty.
Defined.

End BridgeExtras.

(** ** The signer, between the bridge and the verifier *)

Section SignerExtras.
Import Bridge Dispatch Signer.

Lemma hash_hex_length (data : list N) : String.length (hex (sha256 data)) = 64%nat.
Proof. by rewrite hex_length, sha256_length. Qed.

Lemma auth_metadata_hash (img_hash nonce extranonce2 ntime : string) :
  auth_metadata img_hash nonce extranonce2 ntime !! "Silicon-Auth-Hash"%string = Some img_hash.
Proof. meta_lookup. Qed.

Lemma auth_metadata_components (img_hash nonce extranonce2 ntime : string) :
  extract_components (auth_metadata img_hash nonce extranonce2 ntime) =
  Some {| comp_v := "20000000"; comp_p := img_hash; comp_en2 := extranonce2;
          comp_nt := ntime; comp_nb := "1d00ffff"; comp_no := nonce |}.
Proof.
  set (meta := auth_metadata img_hash nonce extranonce2 ntime).
  assert (Hv : meta !! "Silicon-Auth-Version"%string = Some "20000000"%string)
    by (subst meta; meta_lookup).
  assert (Hp : meta !! "Silicon-Auth-Hash"%string = Some img_hash)
    by (subst meta; meta_lookup).
  assert (Hen2 : meta !! "Silicon-Auth-Extranonce2"%string = Some extranonce2)
    by (subst meta; meta_lookup).
  assert (Hnt : meta !! "Silicon-Auth-Ntime"%string = Some ntime)
    by (subst meta; meta_lookup).
  assert (Hno : meta !! "Silicon-Auth-Nonce"%string = Some nonce)
    by (subst meta; meta_lookup).
  unfold extract_components.
  rewrite Hv. cbn [mbind option_bind]. rewrite Hp. cbn [mbind option_bind].
  rewrite Hen2. cbn [mbind option_bind]. rewrite Hnt. cbn [mbind option_bind].
  rewrite Hno. reflexivity.
Qed.

(** A file signed with the reply the bridge gives for a share (the job
    id, the nonce, the five parameters) carries every field the verifier
    reads and the hash of its own pixels: [verify_art] on it passes the
    metadata and integrity checks, and its answer is that of the search,
    run with the fixed version, the pixel hash, and the extranonce2, ntime
    and nonce of the share. *)
Theorem signed_art_reaches_search (fs : gmap string PngImage) (image_path : string)
    (img : PngImage) (job_id nonce worker job extranonce2 ntime nonce' : string) :
  fs !! image_path = Some img ->
  let reply :=
    submit_result (JStr job_id) (JStr nonce)
      (JList [JStr worker; JStr job; JStr extranonce2; JStr ntime; JStr nonce']) in
  let comp :=
    {| comp_v := "20000000"; comp_p := hex (sha256 (tobytes img));
       comp_en2 := extranonce2; comp_nt := ntime; comp_nb := "1d00ffff";
       comp_no := nonce |} in
  exists fs',
    get_silicon_signature fs image_path (Some reply) =
      (Return (Some (str_replace ".png" "_auth.png" image_path)), fs') /\
    verify_art fs' (str_replace ".png" "_auth.png" image_path) =
      search_from comp (tobytes img).
Proof.
  intros Himg reply comp. unfold get_silicon_signature. rewrite Himg.
  eexists. split; [reflexivity|].
  unfold verify_art. rewrite lookup_insert_eq. cbn [info tobytes].
  rewrite auth_metadata_hash, String.eqb_refl. cbn [negb].
  rewrite auth_metadata_components. reflexivity.
Qed.

Lemma fs_plain_art : SignerExamples.fs_plain !! "art.png"%string = Some SignerExamples.img_plain.
Proof. reflexivity. Defined.

Lemma fs_plain_scan : SignerExamples.fs_plain !! "scan"%string = Some SignerExamples.img_plain.
Proof. reflexivity. Defined.

Lemma signed_art_reaches_search_witness :
  str_replace ".png" "_auth.png" "art.png" = "art_auth.png"%string /\
  exists fs',
    get_silicon_signature SignerExamples.fs_plain "art.png"
      (Some (submit_result (JStr "3") (JStr "deadbeef")
               (JList [JStr "worker"; JStr "3"; JStr "00000000"; JStr "6964c85e";
                       JStr "deadbeef"]))) =
      (Return (Some (str_replace ".png" "_auth.png" "art.png")), fs') /\
    verify_art fs' (str_replace ".png" "_auth.png" "art.png") =
      search_from
        {| comp_v := "20000000";
           comp_p := hex (sha256 (tobytes SignerExamples.img_plain));
           comp_en2 := "00000000"; comp_nt := "6964c85e"; comp_nb := "1d00ffff";
           comp_no := "deadbeef" |}
        (tobytes SignerExamples.img_plain).
Proof.
  split; [reflexivity|].
  apply (signed_art_reaches_search SignerExamples.fs_plain "art.png"
           SignerExamples.img_plain "3" "deadbeef" "worker" "3" "00000000" "6964c85e"
           "deadbeef" fs_plain_art).
Defined.

(** The request of the signer on its way to the device: the API loop
    queues the hash it carries, and the job the dispatcher sends has that
    hash as its previous-hash field, neither cut nor padded. *)
Theorem sign_request_reaches_device (broken : gset sock) (now : N) (self : DualBridge)
    (client s9 : sock) (img : PngImage) :
  s9_conn self = Some s9 ->
  s9 ∉ broken ->
  let img_hash := hex (sha256 (tobytes img)) in
  api_request client (Some (Some (sign_request img))) = (Some (client, JStr img_hash), []) /\
  (dispatch_request broken now self client (JStr img_hash)).2 =
    [LockAcquire; LockRelease;
     Send s9 (notify_msg (format_hex (job_counter self + 1)) img_hash now)] /\
  pending_jobs (dispatch_request broken now self client (JStr img_hash)).1
    !! format_hex (job_counter self + 1) = Some client.
Proof.
  intros Hs9 Hdev img_hash.
  pose proof (hash_hex_length (tobytes img)) as Hlen. fold img_hash in Hlen.
  split; [|split].
  - unfold api_request, sign_request. fold img_hash.
    change (dict_get [("data"%string, JStr img_hash)] "data" JNull) with (JStr img_hash).
    cbn [truthy]. destruct img_hash; [discriminate | reflexivity].
  - unfold dispatch_request, send_mining_notify. cbn [s9_conn].
    rewrite Hs9, (send_ok_true _ _ Hdev). cbn [snd app].
    by rewrite (pad_prev_hash_full img_hash Hlen).
  - unfold dispatch_request. rewrite Hs9. cbn [fst pending_jobs]. apply lookup_insert_eq.
Qed.

Lemma sign_request_reaches_device_witness :
  let img_hash := hex (sha256 (tobytes SignerExamples.img_plain)) in
  api_request 9%nat (Some (Some (sign_request SignerExamples.img_plain))) =
    (Some (9%nat, JStr img_hash), []) /\
  (dispatch_request ∅ 1768220766 BridgeExamples.bridge0 9%nat (JStr img_hash)).2 =
    [LockAcquire; LockRelease; Send 3%nat (notify_msg "3" img_hash 1768220766)] /\
  pending_jobs (dispatch_request ∅ 1768220766 BridgeExamples.bridge0 9%nat (JStr img_hash)).1
    !! "3"%string = Some 9%nat.
Proof.
  apply (sign_request_reaches_device ∅ 1768220766 BridgeExamples.bridge0 9%nat 3%nat
           SignerExamples.img_plain eq_refl).
  apply not_elem_of_empty.
Defined.

(** Without a device the dispatcher answers the requester with an error
    line and closes it, taking no identifier; the signer that reads
    this reply returns [None] and writes no file. *)
Theorem sign_refused_without_device (broken : gset sock) (now : N) (self : DualBridge)
    (client : sock) (data : jval) (fs : gmap string PngImage) (image_path : string)
    (img : PngImage) :
  s9_conn self = None ->
  client ∉ broken ->
  fs !! image_path = Some img ->
  exists reply,
    dispatch_request broken now self client data = (self, [Send client reply; Close client]) /\
    get_silicon_signature fs image_path (Some reply) = (Return None, fs).
Proof.
  intros Hs9 Hclient Himg. eexists. split.
  - unfold dispatch_request. rewrite Hs9, (send_ok_true _ _ Hclient). reflexivity.
  - unfold get_silicon_signature. rewrite Himg. reflexivity.
Qed.

Lemma sign_refused_without_device_witness :
  exists reply,
    dispatch_request ∅ 1768220766 SignerExamples.bridge_idle 9%nat (JStr "ab") =
      (SignerExamples.bridge_idle, [Send 9%nat reply; Close 9%nat]) /\
    get_silicon_signature SignerExamples.fs_plain "art.png" (Some reply) =
      (Return None, SignerExamples.fs_plain).
Proof.
  apply (sign_refused_without_device ∅ 1768220766 SignerExamples.bridge_idle 9%nat
           (JStr "ab") SignerExamples.fs_plain "art.png" SignerExamples.img_plain eq_refl);
    [apply not_elem_of_empty | exact fs_plain_art].
Defined.

Lemma str_replace_absent (old new s : string) :
  (forall i, substring i (String.length old) s <> old) ->
  str_replace_go old new 0 s = s.
Proof.
  induction s as [|c s IH]; intros Habsent; [reflexivity|].
  cbn [str_replace_go].
  destruct (String.prefix old (String c s)) eqn:Eprefix.
  - apply prefix_correct in Eprefix. by destruct (Habsent 0%nat).
  - f_equal. apply IH. intros i Hi. apply (Habsent (S i)).
    destruct old; [|exact Hi]. by destruct (Habsent 0%nat).
Qed.

(** The output path of a file name without a dot before its [.png]:
    the suffix becomes [_auth.png]. *)
Theorem sign_auth_path (base : string) :
  ~ In "."%char (list_ascii_of_string base) ->
  str_replace ".png" "_auth.png" (base ++ ".png") = (base ++ "_auth.png")%string.
Proof.
  unfold str_replace. induction base as [|c base IH]; intros Hdot.
  - reflexivity.
  - rewrite !string_app_cons. cbn [str_replace_go String.prefix].
    destruct (ascii_dec "." c) as [<- | _].
    + destruct Hdot. by left.
    + f_equal. apply IH. intros Hin. apply Hdot. by right.
Qed.

Lemma sign_auth_path_witness :
  str_replace ".png" "_auth.png" ("silicon_tv_v4" ++ ".png") =
  ("silicon_tv_v4" ++ "_auth.png")%string.
Proof.
  apply sign_auth_path. cbn.
  intros Hin. repeat (destruct Hin as [Hin | Hin]; [discriminate Hin|]). exact Hin.
Defined.

(** A path in which [.png] does not occur is its own output path: the
    signed file then replaces the file that was signed. *)
Theorem sign_output_path (fs : gmap string PngImage) (image_path : string)
    (img : PngImage) (job_id nonce worker job extranonce2 ntime nonce' : string) :
  fs !! image_path = Some img ->
  (forall i, substring i 4 image_path <> ".png"%string) ->
  let reply :=
    submit_result (JStr job_id) (JStr nonce)
      (JList [JStr worker; JStr job; JStr extranonce2; JStr ntime; JStr nonce']) in
  get_silicon_signature fs image_path (Some reply) =
    (Return (Some image_path),
     <[image_path :=
         {| info := auth_metadata (hex (sha256 (tobytes img))) nonce extranonce2 ntime;
            tobytes := tobytes img |}]> fs).
Proof.
  intros Himg Habsent reply. unfold get_silicon_signature. rewrite Himg.
  cbv zeta. unfold reply, submit_result.
  change (dict_lookup _ "error") with (@None jval).
  change (dict_lookup _ "nonce") with (Some (JStr nonce)).
  change (dict_lookup _ "params") with
    (Some (JList [JStr worker; JStr job; JStr extranonce2; JStr ntime; JStr nonce'])).
  cbv iota beta. cbn [getitem lookup list_lookup].
  unfold str_replace. rewrite (str_replace_absent ".png" "_auth.png" image_path Habsent).
  reflexivity.
Qed.

Lemma sign_output_path_witness :
  get_silicon_signature SignerExamples.fs_plain "scan"
    (Some (submit_result (JStr "3") (JStr "deadbeef")
             (JList [JStr "worker"; JStr "3"; JStr "00000000"; JStr "6964c85e";
                     JStr "deadbeef"]))) =
  (Return (Some "scan"%string),
   <["scan"%string :=
       {| info := auth_metadata (hex (sha256 (tobytes SignerExamples.img_plain)))
                    "deadbeef" "00000000" "6964c85e";
          tobytes := tobytes SignerExamples.img_plain |}]> SignerExamples.fs_plain).
Proof.
  apply (sign_output_path SignerExamples.fs_plain "scan" SignerExamples.img_plain
           "3" "deadbeef" "worker" "3" "00000000" "6964c85e" "deadbeef" fs_plain_scan).
  intros [|[|[|[|[|i]]]]] E; vm_compute in E; discriminate E.
Defined.

End SignerExtras.
